(** * TEMP0RAL_CAPTCHA: a shallow embedding of [main.go]

    The development follows the source file top to bottom: the challenge
    store and the four request handlers, the equation generator, and the
    image renderer with its line rasteriser.  Go's [int] is the 64-bit
    two's-complement integer; it is modelled as [Z] with the wrap-around
    written out. *)

From Stdlib Require Import ZArith String Ascii List Lia Bool.
From stdpp Require Import base option list gmap strings pretty.

Open Scope string_scope.
Open Scope Z_scope.

(** ** Go's [int] *)

Module GoInt.

Definition minInt : Z := - 2 ^ 63.
Definition maxInt : Z := 2 ^ 63 - 1.

(** Two's-complement wrap-around of an arithmetic result into [int]. *)
Definition wrap (z : Z) : Z := (z + 2 ^ 63) mod 2 ^ 64 - 2 ^ 63.

Definition in_int (z : Z) : Prop := minInt <= z <= maxInt.

Definition add (a b : Z) : Z := wrap (a + b).
Definition sub (a b : Z) : Z := wrap (a - b).
Definition mul (a b : Z) : Z := wrap (a * b).
Definition neg (a : Z) : Z := wrap (- a).

(** func abs(x int) int *)
Definition abs (x : Z) : Z := if x <? 0 then neg x else x.

End GoInt.

(** ** strconv.Atoi

    The standard library's parser, as the handler uses it: an optional
    sign, then one or more decimal digits, and a value that fits [int];
    anything else is an error (syntax or range). *)

Module Strconv.

Definition is_digit (c : ascii) : bool :=
  (48 <=? Z.of_nat (nat_of_ascii c)) && (Z.of_nat (nat_of_ascii c) <=? 57).

Fixpoint digits (n : Z) (s : string) : option Z :=
  match s with
  | EmptyString => Some n
  | String ch s' =>
      if is_digit ch
      then digits (n * 10 + (Z.of_nat (nat_of_ascii ch) - 48)) s'
      else None
  end.

Definition Atoi (s : string) : option Z :=
  match s with
  | EmptyString => None
  | String c rest =>
      let neg := Ascii.eqb c "-" in
      let body := if neg || Ascii.eqb c "+" then rest else s in
      match body with
      | EmptyString => None
      | _ =>
          match digits 0 body with
          | None => None
          | Some n =>
              let v := if neg then - n else n in
              if (GoInt.minInt <=? v) && (v <=? GoInt.maxInt)
              then Some v else None
          end
      end
  end.

End Strconv.

(** ** Process state and effects

    Besides the store, a running process has the entropy source behind
    [crypto/rand.Reader] and, for accounting, the number of times the
    embedded font has been parsed. *)

Record World : Type := MkWorld {
  entropy : nat -> Z;   (* the values rand.Reader is going to deliver *)
  cursor : nat;         (* how many of them have been consumed *)
  fontParses : nat      (* calls of opentype.Parse so far *)
}.

(** A call returns, panics, or is still running when the fuel given to
    its loops is spent. *)
Inductive Outcome (A : Type) : Type :=
| Returns (a : A) (w : World)
| Panics (msg : string)
| OutOfFuel.
Arguments Returns {A} _ _.
Arguments Panics {A} _.
Arguments OutOfFuel {A}.

Definition M (A : Type) : Type := World -> Outcome A.

#[global] Instance M_ret : MRet M := fun A a w => Returns a w.
#[global] Instance M_bind : MBind M := fun A B k m w =>
  match m w with
  | Returns a w' => k a w'
  | Panics msg => Panics msg
  | OutOfFuel => OutOfFuel
  end.

Definition panic {A : Type} (msg : string) : M A := fun _ => Panics msg.

Definition liftFuel {A : Type} (o : option A) : M A :=
  fun w => match o with Some a => Returns a w | None => OutOfFuel end.

(** One more value has been read from the entropy source. *)
Definition advance (w : World) : World :=
  MkWorld (entropy w) (S (cursor w)) (fontParses w).

Module Rand.

(** rand.Int(rand.Reader, max): panics when [max <= 0], otherwise
    delivers a value of [0, max).  The value is the next entropy word
    reduced into that range, so that every value of the range is a
    possible result and nothing else is. *)
Definition Int (max : Z) : M Z := fun w =>
  if max <=? 0 then Panics "crypto/rand: argument to Int is <= 0"
  else Returns (entropy w (cursor w) mod max) (advance w).

End Rand.

(** func randInt(max int) int *)
Definition randInt (max : Z) : M Z :=
  n ← Rand.Int max; mret n.

(** ** The equation generator *)

(** func getRandomNumber(min, max int) int *)
Definition getRandomNumber (min max : Z) : M Z :=
  n ← Rand.Int (GoInt.add (GoInt.sub max min) 1);
  mret (GoInt.add n min).

(** func calculateAnswer(a, b int, op string) int *)
Definition calculateAnswer (a b : Z) (op : string) : Z :=
  if String.eqb op "+" then GoInt.add a b
  else if String.eqb op "-" then GoInt.sub a b
  else if String.eqb op "*" then GoInt.mul a b
  else 0.

Definition ops : list string := ["+"; "-"; "*"].

(** fmt.Sprintf("%d %s %d = ?", a, op, b) *)
Definition Sprintf_equation (a : Z) (op : string) (b : Z) : string :=
  (pretty a ++ " " ++ op ++ " " ++ pretty b ++ " = ?")%string.

(** generateEquation, first half: the operator and the two operands. *)
Definition drawOperands : M (string * Z * Z) :=
  opIndex ← Rand.Int (Z.of_nat (length ops));
  match ops !! Z.to_nat opIndex with
  | None => panic "index out of range"
  | Some op =>
      if String.eqb op "+" then
        a ← getRandomNumber 1 10;
        b ← getRandomNumber 1 10;
        mret (op, a, b)
      else if String.eqb op "-" then
        a ← getRandomNumber 1 20;
        b ← getRandomNumber 1 a;
        mret (op, a, b)
      else if String.eqb op "*" then
        a ← getRandomNumber 1 10;
        b ← getRandomNumber 1 10;
        mret (op, a, b)
      else mret (op, 0, 0)
  end.

(** func generateEquation() (string, int) *)
Definition generateEquation : M (string * Z) :=
  '(op, a, b) ← drawOperands;
  let equation := Sprintf_equation a op b in
  let answer := calculateAnswer a b op in
  mret (equation, answer).

(** ** The challenge store *)

(** type captchaEntry struct; [created] is the [time.Time] of insertion,
    kept as a timestamp. *)
Record captchaEntry : Type := CaptchaEntry {
  equation : string;
  answer : Z;
  created : Z
}.

(** [captchaStore.data]; the mutex makes each locked region below one
    atomic step on this map. *)
Abbreviation Store := (gmap string captchaEntry).

Module StoreOps.

(** The locked region of GET / and GET /captcha/new. *)
Definition create (st : Store) (captchaID : string) (eqn : string)
    (ans now : Z) : Store :=
  <[captchaID := CaptchaEntry eqn ans now]> st.

(** The read-locked region of GET /captcha/image/:id. *)
Definition peek (st : Store) (captchaID : string)
    : option captchaEntry * Store :=
  (st !! captchaID, st).

(** The locked region of POST /validate. *)
Definition consume (st : Store) (captchaID : string)
    : option captchaEntry * Store :=
  match st !! captchaID with
  | Some entry => (Some entry, delete captchaID st)
  | None => (None, st)
  end.

End StoreOps.



(** ** Images

    [image.RGBA] holds one colour per pixel, row by row; [Stride] is
    counted in pixels. *)

Module color.

Record RGBA : Type := MkRGBA { R : Z; G : Z; B : Z; A : Z }.

Definition White : RGBA := MkRGBA 255 255 255 255.
Definition Black : RGBA := MkRGBA 0 0 0 255.
Definition Transparent : RGBA := MkRGBA 0 0 0 0.

End color.

Module image.

Record Rectangle : Type := MkRect { MinX : Z; MinY : Z; MaxX : Z; MaxY : Z }.

Definition Dx (r : Rectangle) : Z := MaxX r - MinX r.
Definition Dy (r : Rectangle) : Z := MaxY r - MinY r.

(** image.Rect: the corners are put in order. *)
Definition Rect (x0 y0 x1 y1 : Z) : Rectangle :=
  MkRect (Z.min x0 x1) (Z.min y0 y1) (Z.max x0 x1) (Z.max y0 y1).

Record RGBA : Type := MkRGBA {
  Pix : list color.RGBA;
  Stride : Z;
  Bounds : Rectangle
}.

Definition NewRGBA (r : Rectangle) : RGBA :=
  MkRGBA (replicate (Z.to_nat (Dx r * Dy r)) color.Transparent) (Dx r) r.

(** Point{x, y}.In(r) *)
Definition PointIn (x y : Z) (r : Rectangle) : bool :=
  (MinX r <=? x) && (x <? MaxX r) && (MinY r <=? y) && (y <? MaxY r).

Definition PixOffset (p : RGBA) (x y : Z) : Z :=
  (y - MinY (Bounds p)) * Stride p + (x - MinX (Bounds p)).

(** (p *RGBA).Set: a point outside the rectangle is ignored. *)
Definition Set_ (p : RGBA) (x y : Z) (c : color.RGBA) : RGBA :=
  if PointIn x y (Bounds p)
  then MkRGBA (<[Z.to_nat (PixOffset p x y) := c]> (Pix p)) (Stride p) (Bounds p)
  else p.

(** (p *RGBA).RGBAAt *)
Definition At (p : RGBA) (x y : Z) : color.RGBA :=
  if PointIn x y (Bounds p)
  then default color.Transparent (Pix p !! Z.to_nat (PixOffset p x y))
  else color.Transparent.

(** draw.Draw(img, img.Bounds(), uniform colour, image.Point{}, draw.Src) *)
Definition Fill (p : RGBA) (c : color.RGBA) : RGBA :=
  MkRGBA ((fun _ => c) <$> Pix p) (Stride p) (Bounds p).

End image.

(** ** 26.6 fixed-point numbers ([fixed.Int26_6] is an [int32]) *)

Module fixed.

Definition wrap32 (z : Z) : Z := (z + 2 ^ 31) mod 2 ^ 32 - 2 ^ 31.

(** fixed.I *)
Definition I (i : Z) : Z := wrap32 (Z.shiftl i 6).

(** Int26_6.Ceil *)
Definition Ceil (x : Z) : Z := Z.shiftr (wrap32 (x + 63)) 6.

(** fixed.P *)
Definition P (x y : Z) : Z * Z := (wrap32 (Z.shiftl x 6), wrap32 (Z.shiftl y 6)).

Definition sub (a b : Z) : Z := wrap32 (a - b).

(** Division of Go integers truncates towards zero. *)
Definition div (a b : Z) : Z := wrap32 (Z.quot a b).

End fixed.

(** ** The font library

    [opentype] and [font] are outside the repository.  What the renderer
    uses of them is collected here: parsing the embedded [goregular.TTF],
    making a face for the fixed options (size 32, 72 DPI, full hinting),
    measuring a string and drawing one in black at a given dot. *)

Record FontLib : Type := MkFontLib {
  Font : Type;
  Face : Type;
  Parse_goregular : option Font;
  NewFace : Font -> option Face;
  MeasureString : Face -> string -> Z;
  DrawString : image.RGBA -> Face -> Z * Z -> string -> image.RGBA
}.

(** Drawing glyphs paints pixels of the destination; it does not resize
    or move it. *)
Definition keeps_canvas (L : FontLib) : Prop :=
  forall img f dot s,
    image.Bounds (DrawString L img f dot s) = image.Bounds img /\
    image.Stride (DrawString L img f dot s) = image.Stride img /\
    length (image.Pix (DrawString L img f dot s)) = length (image.Pix img).

(** ** The line rasteriser *)

(** The [for] loop of drawLine.  [fuel] bounds the number of iterations;
    [None] means the loop has not reached its [break] within it. *)
Fixpoint drawLine_loop (fuel : nat) (img : image.RGBA)
    (x0 y0 x1 y1 dx dy sx sy err : Z) (c : color.RGBA) : option image.RGBA :=
  match fuel with
  | O => None
  | S fuel' =>
      let img := image.Set_ img x0 y0 c in
      if (x0 =? x1) && (y0 =? y1) then Some img
      else
        let e2 := GoInt.mul 2 err in
        let '(err, x0) :=
          if e2 >? GoInt.neg dy then (GoInt.sub err dy, GoInt.add x0 sx)
          else (err, x0) in
        let '(err, y0) :=
          if e2 <? dx then (GoInt.add err dx, GoInt.add y0 sy)
          else (err, y0) in
        drawLine_loop fuel' img x0 y0 x1 y1 dx dy sx sy err c
  end.

(** func drawLine(img *image.RGBA, x0, y0, x1, y1 int, color color.Color) *)
Definition drawLine (fuel : nat) (img : image.RGBA) (x0 y0 x1 y1 : Z)
    (c : color.RGBA) : option image.RGBA :=
  let dx := GoInt.abs (GoInt.sub x1 x0) in
  let dy := GoInt.abs (GoInt.sub y1 y0) in
  let sx := if x0 >? x1 then -1 else 1 in
  let sy := if y0 >? y1 then -1 else 1 in
  let err := GoInt.sub dx dy in
  drawLine_loop fuel img x0 y0 x1 y1 dx dy sx sy err c.

(** The same loop, recording the arguments of its [img.Set] calls in
    order instead of performing them. *)
Fixpoint lineWrites_loop (fuel : nat)
    (x0 y0 x1 y1 dx dy sx sy err : Z) : option (list (Z * Z)) :=
  match fuel with
  | O => None
  | S fuel' =>
      if (x0 =? x1) && (y0 =? y1) then Some [(x0, y0)]
      else
        let e2 := GoInt.mul 2 err in
        let '(err', x0') :=
          if e2 >? GoInt.neg dy then (GoInt.sub err dy, GoInt.add x0 sx)
          else (err, x0) in
        let '(err', y0') :=
          if e2 <? dx then (GoInt.add err' dx, GoInt.add y0 sy)
          else (err', y0) in
        cons (x0, y0) <$>
          lineWrites_loop fuel' x0' y0' x1 y1 dx dy sx sy err'
  end.

Definition lineWrites (fuel : nat) (x0 y0 x1 y1 : Z) : option (list (Z * Z)) :=
  let dx := GoInt.abs (GoInt.sub x1 x0) in
  let dy := GoInt.abs (GoInt.sub y1 y0) in
  let sx := if x0 >? x1 then -1 else 1 in
  let sy := if y0 >? y1 then -1 else 1 in
  let err := GoInt.sub dx dy in
  lineWrites_loop fuel x0 y0 x1 y1 dx dy sx sy err.

(** The [img.Set] calls of the first [n] iterations of the loop, in
    order, whether or not the loop has reached its [break] by then. *)
Fixpoint firstWrites_loop (n : nat)
    (x0 y0 x1 y1 dx dy sx sy err : Z) : list (Z * Z) :=
  match n with
  | O => []
  | S n' =>
      if (x0 =? x1) && (y0 =? y1) then [(x0, y0)]
      else
        let e2 := GoInt.mul 2 err in
        let '(err', x0') :=
          if e2 >? GoInt.neg dy then (GoInt.sub err dy, GoInt.add x0 sx)
          else (err, x0) in
        let '(err', y0') :=
          if e2 <? dx then (GoInt.add err' dx, GoInt.add y0 sy)
          else (err', y0) in
        (x0, y0) :: firstWrites_loop n' x0' y0' x1 y1 dx dy sx sy err'
  end.

Definition firstWrites (n : nat) (x0 y0 x1 y1 : Z) : list (Z * Z) :=
  let dx := GoInt.abs (GoInt.sub x1 x0) in
  let dy := GoInt.abs (GoInt.sub y1 y0) in
  let sx := if x0 >? x1 then -1 else 1 in
  let sy := if y0 >? y1 then -1 else 1 in
  let err := GoInt.sub dx dy in
  firstWrites_loop n x0 y0 x1 y1 dx dy sx sy err.

(** Performing a list of writes. *)
Definition setAll (c : color.RGBA) (img : image.RGBA) (ws : list (Z * Z))
    : image.RGBA :=
  foldl (fun im p => image.Set_ im p.1 p.2 c) img ws.

(** ** The renderer *)

Section Renderer.
Variable L : FontLib.

(** opentype.Parse(goregular.TTF), with the [panic(err)] that follows. *)
Definition opentype_Parse : M (Font L) := fun w =>
  let w' := MkWorld (entropy w) (cursor w) (S (fontParses w)) in
  match Parse_goregular L with
  | Some ttfFont => Returns ttfFont w'
  | None => Panics "opentype.Parse"
  end.

(** opentype.NewFace(ttfFont, options), with the [panic(err)] that follows. *)
Definition opentype_NewFace (ttfFont : Font L) : M (Face L) :=
  match NewFace L ttfFont with
  | Some face => mret face
  | None => panic "opentype.NewFace"
  end.

(** The [for i := 0; i < 10; i++] loop of addDistortion, [n] iterations
    left. *)
Fixpoint addDistortion_loop (n : nat) (fuel : nat) (img : image.RGBA)
    (width height : Z) : M image.RGBA :=
  match n with
  | O => mret img
  | S n' =>
      x1 ← randInt width;
      y1 ← randInt height;
      x2 ← randInt width;
      y2 ← randInt height;
      img' ← liftFuel (drawLine fuel img x1 y1 x2 y2 color.Black);
      addDistortion_loop n' fuel img' width height
  end.

(** func addDistortion(img *image.RGBA, width, height int) *)
Definition addDistortion (fuel : nat) (img : image.RGBA) (width height : Z)
    : M image.RGBA :=
  addDistortion_loop 10 fuel img width height.

(** generateImage up to and including [d.DrawString(text)], for a face
    already made: the white canvas with the text on it. *)
Definition textLayer (face : Face L) (text : string) : image.RGBA :=
  let '(width, height) := (200, 80) in
  let img := image.NewRGBA (image.Rect 0 0 width height) in
  let img := image.Fill img color.White in
  let textWidth := MeasureString L face text in
  let startX := fixed.div (fixed.sub (fixed.I width) textWidth) 2 in
  DrawString L img face (fixed.P (fixed.Ceil startX) 50) text.

(** func generateImage(text string) *image.RGBA *)
Definition generateImage (fuel : nat) (text : string) : M image.RGBA :=
  let '(width, height) := (200, 80) in
  ttfFont ← opentype_Parse;
  face ← opentype_NewFace ttfFont;
  let img := textLayer face text in
  addDistortion fuel img width height.

(** ** The handlers *)

(** What a handler sends back; [H] is the [gin.H] given to the template
    or serialised. *)
Inductive Response : Type :=
| HTML (status : Z) (template : string) (H : list (string * string))
| JSON (status : Z) (H : list (string * string))
| AbortWithStatus (status : Z)
| PNG (img : image.RGBA).

Definition StatusOK : Z := 200.
Definition StatusBadRequest : Z := 400.
Definition StatusNotFound : Z := 404.

Definition respExpired : Response :=
  HTML StatusBadRequest "index.html" [("error", "CAPTCHA expired or invalid")].
Definition respIncorrect : Response :=
  HTML StatusBadRequest "index.html"
       [("error", "Incorrect answer, please try again")].
Definition respSuccess : Response :=
  HTML StatusOK "success.html" [].

(** GET /, for the [uuid] minted and the time read during the request. *)
Definition indexPage (st : Store) (captchaID : string) (now : Z)
    : M (Response * Store) :=
  '(eqn, ans) ← generateEquation;
  let st' := StoreOps.create st captchaID eqn ans now in
  mret (HTML StatusOK "index.html" [("captchaID", captchaID)], st').

(** GET /captcha/new *)
Definition captchaNew (st : Store) (captchaID : string) (now : Z)
    : M (Response * Store) :=
  '(eqn, ans) ← generateEquation;
  let st' := StoreOps.create st captchaID eqn ans now in
  mret (JSON StatusOK [("captchaID", captchaID);
                       ("imageUrl", "/captcha/image/" +:+ captchaID)], st').

(** GET /captcha/image/:id *)
Definition captchaImage (fuel : nat) (st : Store) (captchaID : string)
    : M (Response * Store) :=
  let '(found, st') := StoreOps.peek st captchaID in
  match found with
  | None => mret (AbortWithStatus StatusNotFound, st')
  | Some entry =>
      img ← generateImage fuel (equation entry);
      mret (PNG img, st')
  end.

(** POST /validate *)
Definition validate (st : Store) (captchaID userAnswer : string)
    : Response * Store :=
  let '(found, st') := StoreOps.consume st captchaID in
  match found with
  | None => (respExpired, st')
  | Some entry =>
      match Strconv.Atoi userAnswer with
      | None => (respIncorrect, st')
      | Some userAnswerInt =>
          if negb (userAnswerInt =? answer entry)
          then (respIncorrect, st')
          else (respSuccess, st')
      end
  end.

(** ** The serving process *)

Inductive Request : Type :=
| GetIndex (uuid : string) (now : Z)
| GetCaptchaNew (uuid : string) (now : Z)
| GetCaptchaImage (id : string)
| PostValidate (captchaID answer : string).

Definition handle (fuel : nat) (rq : Request) (st : Store)
    : M (Response * Store) :=
  match rq with
  | GetIndex uuid now => indexPage st uuid now
  | GetCaptchaNew uuid now => captchaNew st uuid now
  | GetCaptchaImage id => captchaImage fuel st id
  | PostValidate id ans => mret (validate st id ans)
  end.

(** Requests served one after the other, as the store's lock orders
    them. *)
Fixpoint serve (fuel : nat) (rqs : list Request) (st : Store)
    : M (list Response * Store) :=
  match rqs with
  | [] => mret ([], st)
  | rq :: rqs' =>
      '(r, st') ← handle fuel rq st;
      '(rs, st'') ← serve fuel rqs' st';
      mret (r :: rs, st'')
  end.

End Renderer.

(** [main] before [r.Run]: an empty store, nothing read from the entropy
    source, no font parsed. *)
Definition startup (e : nat -> Z) : Store * World := (∅, MkWorld e 0 0).

(** ** Vocabulary for the properties of the rasteriser *)

(** Endpoints for which no subtraction or doubling in drawLine leaves
    the range of [int]. *)
Definition safe_endpoints (x0 y0 x1 y1 : Z) : Prop :=
  GoInt.in_int x0 /\ GoInt.in_int y0 /\ GoInt.in_int x1 /\ GoInt.in_int y1 /\
  3 * Z.max (Z.abs (x1 - x0)) (Z.abs (y1 - y0)) < 2 ^ 63.

(** The longer of the two extents of the segment. *)
Definition majorLength (x0 y0 x1 y1 : Z) : Z :=
  Z.max (Z.abs (x1 - x0)) (Z.abs (y1 - y0)).

(** [p] lies in the axis-aligned bounding box of the two endpoints. *)
Definition inBox (x0 y0 x1 y1 : Z) (p : Z * Z) : Prop :=
  Z.min x0 x1 <= p.1 <= Z.max x0 x1 /\ Z.min y0 y1 <= p.2 <= Z.max y0 y1.

(** [p] is on or next to the ideal line through the endpoints: measured
    along the shorter extent it is at most half a pixel away from it. *)
Definition nearLine (x0 y0 x1 y1 : Z) (p : Z * Z) : Prop :=
  2 * Z.abs ((x1 - x0) * (p.2 - y0) - (y1 - y0) * (p.1 - x0))
  <= majorLength x0 y0 x1 y1.

(** The [t]-th write is [t] pixels along the longer extent. *)
Definition majorStep (x0 y0 x1 y1 : Z) (t : nat) (p : Z * Z) : Prop :=
  (Z.abs (y1 - y0) <= Z.abs (x1 - x0) -> Z.abs (p.1 - x0) = Z.of_nat t) /\
  (Z.abs (x1 - x0) <= Z.abs (y1 - y0) -> Z.abs (p.2 - y0) = Z.of_nat t).

(** The loop of drawLine after [i] steps in x and [j] steps in y, with
    [D] the deviation from the ideal line accumulated in [err]. *)
Definition lineInv (dx dy i j D : Z) : Prop :=
  0 <= i <= dx /\ 0 <= j <= dy /\
  D = j * dx - i * dy /\
  - Z.max dx dy <= 2 * D <= Z.max dx dy /\
  (dx = dy -> i = j).

(** Iterations done in that state. *)
Definition lineSteps (dx dy i j : Z) : Z := if dy <=? dx then i else j.

(** The endpoints (x1, y1, x2, y2) of the [i]-th noise stroke, read off
    the entropy source as addDistortion does from world [w] on. *)
Definition strokeAt (width height : Z) (w : World) (i : nat)
    : Z * Z * Z * Z :=
  let c := (cursor w + 4 * i)%nat in
  (entropy w c mod width, entropy w (c + 1)%nat mod height,
   entropy w (c + 2)%nat mod width, entropy w (c + 3)%nat mod height).

Definition strokes (n : nat) (width height : Z) (w : World)
    : list (Z * Z * Z * Z) :=
  strokeAt width height w <$> seq 0 n.

(** [n] values have been read from the entropy source. *)
Definition skip (n : nat) (w : World) : World :=
  MkWorld (entropy w) (n + cursor w) (fontParses w).

(** The writes of one stroke, and of a list of strokes in order. *)
Definition strokeWrites (fuel : nat) (s : Z * Z * Z * Z) : list (Z * Z) :=
  let '(x1, y1, x2, y2) := s in
  default [] (lineWrites fuel x1 y1 x2 y2).

Definition noisePixels (fuel : nat) (ss : list (Z * Z * Z * Z))
    : list (Z * Z) :=
  ss ≫= strokeWrites fuel.

(** Drawing one stroke by its recorded writes. *)
Definition paintStroke (fuel : nat) (img : image.RGBA) (s : Z * Z * Z * Z)
    : image.RGBA :=
  setAll color.Black img (strokeWrites fuel s).

(** The white canvas generateImage starts from. *)
Definition blankCanvas : image.RGBA :=
  image.Fill (image.NewRGBA (image.Rect 0 0 200 80)) color.White.

(** Calls of generateImage made when serving [rq] on store [st]. *)
Definition renders (rq : Request) (st : Store) : nat :=
  match rq with
  | GetCaptchaImage id =>
      match st !! id with Some _ => 1%nat | None => 0%nat end
  | _ => 0%nat
  end.

(** A canvas whose pixel buffer matches its rectangle. *)
Definition wellFormed (img : image.RGBA) : Prop :=
  image.Stride img = image.Dx (image.Bounds img) /\
  0 <= image.Dx (image.Bounds img) /\ 0 <= image.Dy (image.Bounds img) /\
  Z.of_nat (length (image.Pix img)) =
    image.Dx (image.Bounds img) * image.Dy (image.Bounds img).

(** ** Vocabulary for the properties of the handlers *)

(** [rq] stores a challenge under [id]. *)
Definition creates (rq : Request) (id : string) : bool :=
  match rq with
  | GetIndex uuid _ | GetCaptchaNew uuid _ => String.eqb uuid id
  | _ => false
  end.

(** [rq] submits an answer for [id]. *)
Definition submits (rq : Request) (id : string) : bool :=
  match rq with
  | PostValidate captchaID _ => String.eqb captchaID id
  | _ => false
  end.

(** ** Sample data

    Concrete inputs on which the definitions above are run below: an
    entropy source read off a list, a store holding the challenge of the
    end-to-end scenarios, and two stand-ins for the font library, one
    that paints a black dot per character on the baseline and one whose
    embedded font does not parse. *)

Definition tape (l : list Z) : nat -> Z := fun n => default 0 (l !! n).

Definition sampleEntry : captchaEntry := CaptchaEntry "3 + 4 = ?" 7 0.
Definition sampleStore : Store := {[ "tok" := sampleEntry ]}.

Definition dotFont : FontLib :=
  MkFontLib unit unit (Some tt) (fun _ => Some tt)
    (fun _ s => 64 * 16 * Z.of_nat (String.length s))
    (fun img _ dot s =>
       foldl (fun im i =>
                image.Set_ im (Z.shiftr dot.1 6 + 16 * Z.of_nat i)
                           (Z.shiftr dot.2 6) color.Black)
             img (seq 0 (String.length s))).

(** Two entropy sources: with the first every stroke runs from (0,0) to
    (1,0), with the second from (1,0) to (0,0). *)
Definition entropyA : nat -> Z :=
  fun n => if (n mod 4 =? 2)%nat then 1 else 0.
Definition entropyB : nat -> Z :=
  fun n => if (n mod 4 =? 0)%nat then 1 else 0.

Definition brokenFont : FontLib :=
  MkFontLib unit unit None (fun _ => Some tt)
    (fun _ _ => 0) (fun img _ _ _ => img).


(** * Properties *)

(** ** strconv.Atoi on the inputs of the end-to-end scenarios *)

Example Atoi_7 : Strconv.Atoi "7" = Some 7.
Proof. reflexivity. Qed.

Example Atoi_seven : Strconv.Atoi "seven" = None.
Proof. reflexivity. Qed.

Example Atoi_signed :
  Strconv.Atoi "-12" = Some (-12) /\ Strconv.Atoi "+12" = Some 12.
Proof. split; reflexivity. Qed.

Example Atoi_range :
  Strconv.Atoi "9223372036854775808" = None /\
  Strconv.Atoi "-9223372036854775808" = Some GoInt.minInt.
Proof. split; reflexivity. Qed.

Example Atoi_no_digits : Strconv.Atoi "-" = None /\ Strconv.Atoi "" = None.
Proof. split; reflexivity. Qed.

(** ** The store and the validation handler *)

Section StoreFacts.
Implicit Types (st : Store) (id : string) (entry : captchaEntry).

Lemma consume_present st id entry :
  st !! id = Some entry ->
  StoreOps.consume st id = (Some entry, delete id st).
Proof. intros E. unfold StoreOps.consume. now rewrite E. Qed.

Lemma consume_absent st id :
  st !! id = None -> StoreOps.consume st id = (None, st).
Proof. intros E. unfold StoreOps.consume. now rewrite E. Qed.

Lemma consume_store st id : (StoreOps.consume st id).2 = delete id st.
Proof.
  unfold StoreOps.consume. destruct (st !! id) eqn:E; simpl; [done|].
  symmetry. now apply delete_id.
Qed.

Lemma validate_store st id a : (validate st id a).2 = delete id st.
Proof.
  rewrite <- consume_store. unfold validate.
  destruct (StoreOps.consume st id) as [[entry|] st']; simpl; [|done].
  destruct (Strconv.Atoi a) as [n|]; [|done].
  now destruct (negb (n =? answer entry)).
Qed.

Lemma validate_absent st id a :
  st !! id = None -> validate st id a = (respExpired, st).
Proof. intros E. unfold validate. now rewrite (consume_absent _ _ E). Qed.

(** What validate answers, by cases on the store and on the parse. *)
Lemma validate_cases st id a :
  validate st id a =
    match st !! id with
    | None => (respExpired, st)
    | Some entry =>
        (if decide (Strconv.Atoi a = Some (answer entry))
         then respSuccess else respIncorrect, delete id st)
    end.
Proof.
  destruct (st !! id) as [entry|] eqn:E; [|now apply validate_absent].
  unfold validate. rewrite (consume_present _ _ _ E).
  destruct (Strconv.Atoi a) as [n|].
  - destruct (Z.eqb_spec n (answer entry)) as [->|Hne]; simpl.
    + now rewrite decide_True.
    + rewrite decide_False; [done|]. intros [= ?]. contradiction.
  - now rewrite decide_False.
Qed.

End StoreFacts.

(** Once a token is gone, any number of further submissions for it are
    answered "expired" and leave the store as it is. *)
Lemma serve_validate_absent (L : FontLib) (fuel : nat) (st : Store)
    (id : string) (answers : list string) (w : World) :
  st !! id = None ->
  serve L fuel (PostValidate id <$> answers) st w =
  Returns ((fun _ => respExpired) <$> answers, st) w.
Proof.
  intros E. induction answers as [|a answers IH]; [done|].
  cbn [fmap list_fmap serve handle]. unfold mbind, M_bind, mret, M_ret.
  rewrite (validate_absent _ _ _ E).
  change (list_fmap string Request (PostValidate id) answers)
    with (PostValidate id <$> answers).
  now rewrite IH.
Qed.

(** C1. A submission for a stored token removes the challenge whatever
    the answer text is: the first consume hands out the entry, the store
    no longer has the token afterwards, and every later consume or
    validate of that token finds nothing and changes nothing. *)
Theorem validate_single_use (L : FontLib) (fuel : nat) (st : Store)
    (id : string) (entry : captchaEntry) (a : string)
    (later : list string) (w : World) :
  st !! id = Some entry ->
  StoreOps.consume st id = (Some entry, delete id st) /\
  (validate st id a).2 = delete id st /\
  (validate st id a).2 !! id = None /\
  StoreOps.consume (validate st id a).2 id = (None, delete id st) /\
  serve L fuel (PostValidate id <$> later) (validate st id a).2 w =
    Returns ((fun _ => respExpired) <$> later, delete id st) w.
Proof.
  intros E. rewrite validate_store.
  assert (Hgone : delete id st !! id = None) by apply lookup_delete_eq.
  repeat split.
  - now apply consume_present.
  - exact Hgone.
  - now apply consume_absent.
  - now apply serve_validate_absent.
Qed.

Lemma validate_single_use_witness :
  sampleStore !! "tok" = Some sampleEntry /\
  (validate sampleStore "tok" "8").2 !! "tok" = None.
Proof.
  split; [reflexivity|].
  apply (validate_single_use dotFont 200 sampleStore "tok" sampleEntry "8"
           ["7"] (MkWorld (tape []) 0 0)).
  reflexivity.
Defined.

(** C2, as stated, fails: a text that does not parse and a number that
    is wrong get one and the same response for one and the same store. *)
Lemma malformed_same_as_incorrect :
  Strconv.Atoi "seven" = None /\
  Strconv.Atoi "8" = Some 8 /\
  validate sampleStore "tok" "seven" = validate sampleStore "tok" "8".
Proof. repeat split; reflexivity. Qed.

(** C2, amended. In evaluation order: an absent (or already consumed)
    token is answered "expired"; a stored token with an answer text that
    does not parse, or that parses to another number than the stored
    answer, is answered by the single "incorrect answer" response; and
    the success page is returned exactly when the token was present and
    the text parses to the stored answer. *)
Theorem validate_outcomes (st : Store) (id a : string) :
  (st !! id = None -> (validate st id a).1 = respExpired) /\
  (forall entry, st !! id = Some entry ->
     (Strconv.Atoi a = None -> (validate st id a).1 = respIncorrect) /\
     (forall n, Strconv.Atoi a = Some n -> n <> answer entry ->
        (validate st id a).1 = respIncorrect) /\
     (Strconv.Atoi a = Some (answer entry) ->
        (validate st id a).1 = respSuccess)) /\
  ((validate st id a).1 = respSuccess <->
   exists entry, st !! id = Some entry /\
                 Strconv.Atoi a = Some (answer entry)).
Proof.
  rewrite validate_cases. split; [|split].
  - now intros ->.
  - intros entry ->. cbn [fst]. repeat split.
    + intros E. rewrite decide_False; [done|]. now rewrite E.
    + intros n E Hne. rewrite decide_False; [done|]. rewrite E. congruence.
    + intros E. now rewrite decide_True.
  - destruct (st !! id) as [entry|]; cbn [fst].
    + destruct (decide (Strconv.Atoi a = Some (answer entry))) as [E|E].
      * split; [eauto|done].
      * split; [discriminate|]. intros (e' & [= <-] & E'). contradiction.
    + split; [discriminate|]. now intros (e' & ? & _).
Qed.

Lemma validate_outcomes_witness :
  (validate sampleStore "tok" "7").1 = respSuccess /\
  (validate sampleStore "tok" "8").1 = respIncorrect /\
  (validate sampleStore "tok" "seven").1 = respIncorrect /\
  (validate sampleStore "other" "7").1 = respExpired.
Proof.
  pose proof (validate_outcomes sampleStore "tok" "7") as (_ & H7 & _).
  pose proof (validate_outcomes sampleStore "tok" "8") as (_ & H8 & _).
  pose proof (validate_outcomes sampleStore "tok" "seven") as (_ & Hs & _).
  pose proof (validate_outcomes sampleStore "other" "7") as (Ho & _).
  split; [|split; [|split]].
  - now apply (H7 sampleEntry).
  - destruct (H8 sampleEntry eq_refl) as (_ & H8' & _).
    now apply (H8' 8).
  - now apply (Hs sampleEntry).
  - now apply Ho.
Defined.

(** ** Go integers that stay in range *)

Lemma wrap_small (z : Z) : GoInt.in_int z -> GoInt.wrap z = z.
Proof.
  unfold GoInt.in_int, GoInt.minInt, GoInt.maxInt, GoInt.wrap.
  intros H. rewrite Z.mod_small; lia.
Qed.

Lemma wrap_in_int (z : Z) : GoInt.in_int (GoInt.wrap z).
Proof.
  unfold GoInt.in_int, GoInt.minInt, GoInt.maxInt, GoInt.wrap.
  pose proof (Z.mod_pos_bound (z + 2 ^ 63) (2 ^ 64)). lia.
Qed.

Lemma abs_small (z : Z) : - 2 ^ 63 < z < 2 ^ 63 -> GoInt.abs z = Z.abs z.
Proof.
  intros H. unfold GoInt.abs, GoInt.neg.
  destruct (Z.ltb_spec z 0).
  - rewrite wrap_small; [lia|]. unfold GoInt.in_int, GoInt.minInt, GoInt.maxInt. lia.
  - lia.
Qed.

(** ** The equation generator *)

Lemma Rand_Int_range (max : Z) (w : World) :
  0 < max ->
  exists n, Rand.Int max w = Returns n (advance w) /\ 0 <= n < max.
Proof.
  intros H. unfold Rand.Int. destruct (Z.leb_spec max 0); [lia|].
  eexists; split; [reflexivity|]. now apply Z.mod_pos_bound.
Qed.

(** Every value of the range is delivered for some entropy word. *)
Lemma Rand_Int_onto (max n : Z) (e : nat -> Z) (c p : nat) :
  0 <= n < max -> e c = n ->
  Rand.Int max (MkWorld e c p) = Returns n (MkWorld e (S c) p).
Proof.
  intros H E. unfold Rand.Int. destruct (Z.leb_spec max 0); [lia|].
  cbn. rewrite E, Z.mod_small; [done|lia].
Qed.

Lemma getRandomNumber_range (min max : Z) (w : World) :
  0 <= min <= max -> max <= 2 ^ 62 ->
  exists n, getRandomNumber min max w = Returns n (advance w) /\
            min <= n <= max.
Proof.
  intros Hmin Hmax. unfold getRandomNumber, GoInt.add, GoInt.sub.
  assert (Hi : forall z, 0 <= z <= 2 ^ 62 + 1 -> GoInt.wrap z = z).
  { intros z Hz. apply wrap_small.
    unfold GoInt.in_int, GoInt.minInt, GoInt.maxInt. lia. }
  rewrite (Hi (max - min)), (Hi (max - min + 1)) by lia.
  destruct (Rand_Int_range (max - min + 1) w) as (n & E & Hn); [lia|].
  unfold mbind, M_bind. rewrite E. unfold mret, M_ret.
  rewrite Hi by lia. eexists; split; [reflexivity|lia].
Qed.

(** The three possible draws of generateEquation. *)
Lemma drawOperands_spec (w : World) :
  exists op a b,
    drawOperands w = Returns (op, a, b) (advance (advance (advance w))) /\
    ((op = "+" /\ 1 <= a <= 10 /\ 1 <= b <= 10) \/
     (op = "-" /\ 1 <= a <= 20 /\ 1 <= b <= a) \/
     (op = "*" /\ 1 <= a <= 10 /\ 1 <= b <= 10)).
Proof.
  unfold drawOperands.
  destruct (Rand_Int_range (Z.of_nat (length ops)) w) as (i & E & Hi);
    [cbn; lia|].
  unfold mbind at 1, M_bind at 1. rewrite E. cbn in Hi.
  assert (Hcase : i = 0 \/ i = 1 \/ i = 2) by lia.
  destruct Hcase as [-> | [-> | ->]];
    [change (ops !! Z.to_nat 0) with (Some "+")
    |change (ops !! Z.to_nat 1) with (Some "-")
    |change (ops !! Z.to_nat 2) with (Some "*")];
    cbn -[getRandomNumber mbind mret].
  - destruct (getRandomNumber_range 1 10 (advance w)) as (a & Ea & Ha); [lia..|].
    destruct (getRandomNumber_range 1 10 (advance (advance w)))
      as (b & Eb & Hb); [lia..|].
    unfold mbind, M_bind. rewrite Ea, Eb.
    exists "+", a, b. split; [reflexivity|]. left. auto.
  - destruct (getRandomNumber_range 1 20 (advance w)) as (a & Ea & Ha); [lia..|].
    destruct (getRandomNumber_range 1 a (advance (advance w)))
      as (b & Eb & Hb); [lia..|].
    unfold mbind, M_bind. rewrite Ea, Eb.
    exists "-", a, b. split; [reflexivity|]. right; left. auto.
  - destruct (getRandomNumber_range 1 10 (advance w)) as (a & Ea & Ha); [lia..|].
    destruct (getRandomNumber_range 1 10 (advance (advance w)))
      as (b & Eb & Hb); [lia..|].
    unfold mbind, M_bind. rewrite Ea, Eb.
    exists "*", a, b. split; [reflexivity|]. right; right. auto.
Qed.

Lemma generateEquation_unfold (w w' : World) (op : string) (a b : Z) :
  drawOperands w = Returns (op, a, b) w' ->
  generateEquation w =
  Returns (Sprintf_equation a op b, calculateAnswer a b op) w'.
Proof.
  intros E. unfold generateEquation, mbind, M_bind. now rewrite E.
Qed.

Lemma calculateAnswer_small (a b : Z) :
  1 <= a <= 20 -> 1 <= b <= 20 ->
  calculateAnswer a b "+" = a + b /\
  calculateAnswer a b "-" = a - b /\
  calculateAnswer a b "*" = a * b.
Proof.
  intros Ha Hb. unfold calculateAnswer, GoInt.add, GoInt.sub, GoInt.mul.
  cbn [String.eqb Ascii.eqb Bool.eqb].
  repeat split; apply wrap_small;
    unfold GoInt.in_int, GoInt.minInt, GoInt.maxInt; nia.
Qed.

(** C3. Every run of generateEquation returns; its operator is "+", "-"
    or "*", its equation text is "<a> <op> <b> = ?" for the operands
    drawn, and its answer is a+b, a-b or a*b accordingly, as integers. *)
Theorem generateEquation_answer (w : World) :
  exists op a b w',
    drawOperands w = Returns (op, a, b) w' /\
    generateEquation w =
      Returns (Sprintf_equation a op b, calculateAnswer a b op) w' /\
    Sprintf_equation a op b =
      (pretty a +:+ " " +:+ op +:+ " " +:+ pretty b +:+ " = ?") /\
    ((op = "+" /\ calculateAnswer a b op = a + b) \/
     (op = "-" /\ calculateAnswer a b op = a - b) \/
     (op = "*" /\ calculateAnswer a b op = a * b)).
Proof.
  destruct (drawOperands_spec w) as (op & a & b & E & H).
  exists op, a, b, (advance (advance (advance w))).
  split; [exact E|]. split; [now apply generateEquation_unfold|].
  split; [reflexivity|].
  destruct H as [(-> & Ha & Hb) | [(-> & Ha & Hb) | (-> & Ha & Hb)]];
    destruct (calculateAnswer_small a b) as (Hadd & Hsub & Hmul); try lia.
  - left. auto.
  - right; left. auto.
  - right; right. auto.
Qed.

(** C4. For the operands drawn by generateEquation: with "+" or "*" both
    lie in [1,10]; with "-" the first lies in [1,20] and the second in
    [1,a], so that b <= a and the stored answer is not negative. *)
Theorem generateEquation_operands (w : World) :
  exists op a b w',
    drawOperands w = Returns (op, a, b) w' /\
    generateEquation w =
      Returns (Sprintf_equation a op b, calculateAnswer a b op) w' /\
    ((op = "+" \/ op = "*") /\ 1 <= a <= 10 /\ 1 <= b <= 10 \/
     op = "-" /\ 1 <= a <= 20 /\ 1 <= b <= a /\
       0 <= calculateAnswer a b op).
Proof.
  destruct (drawOperands_spec w) as (op & a & b & E & H).
  exists op, a, b, (advance (advance (advance w))).
  split; [exact E|]. split; [now apply generateEquation_unfold|].
  destruct H as [(-> & Ha & Hb) | [(-> & Ha & Hb) | (-> & Ha & Hb)]].
  - left. auto.
  - right. destruct (calculateAnswer_small a b) as (_ & Hsub & _); [lia..|].
    rewrite Hsub. repeat split; lia.
  - left. auto.
Qed.

(** Each operator, and the ends of each range, do occur. *)
Example generateEquation_runs :
  generateEquation (MkWorld (tape [0; 2; 3]) 0 0) =
    Returns ("3 + 4 = ?", 7) (MkWorld (tape [0; 2; 3]) 3 0) /\
  generateEquation (MkWorld (tape [1; 19; 19]) 0 0) =
    Returns ("20 - 20 = ?", 0) (MkWorld (tape [1; 19; 19]) 3 0) /\
  generateEquation (MkWorld (tape [1; 19; 0]) 0 0) =
    Returns ("20 - 1 = ?", 19) (MkWorld (tape [1; 19; 0]) 3 0) /\
  generateEquation (MkWorld (tape [2; 9; 9]) 0 0) =
    Returns ("10 * 10 = ?", 100) (MkWorld (tape [2; 9; 9]) 3 0).
Proof. repeat split. Qed.

(** ** The line rasteriser *)

Lemma setAll_cons (c : color.RGBA) (img : image.RGBA) (p : Z * Z)
    (ws : list (Z * Z)) :
  setAll c img (p :: ws) = setAll c (image.Set_ img p.1 p.2 c) ws.
Proof. reflexivity. Qed.

(** The loop on the image performs exactly the recorded writes. *)
Lemma drawLine_loop_writes (fuel : nat) (img : image.RGBA)
    (x0 y0 x1 y1 dx dy sx sy err : Z) (c : color.RGBA) :
  drawLine_loop fuel img x0 y0 x1 y1 dx dy sx sy err c =
  setAll c img <$> lineWrites_loop fuel x0 y0 x1 y1 dx dy sx sy err.
Proof.
  revert img x0 y0 err.
  induction fuel as [|fuel IH]; intros img x0 y0 err; [reflexivity|].
  cbn [drawLine_loop lineWrites_loop].
  destruct ((x0 =? x1) && (y0 =? y1)); [reflexivity|].
  destruct (GoInt.mul 2 err >? GoInt.neg dy), (GoInt.mul 2 err <? dx);
    rewrite IH;
    match goal with
    | |- _ = _ <$> (_ <$> ?o) => now destruct o
    end.
Qed.

Lemma drawLine_writes (fuel : nat) (img : image.RGBA) (x0 y0 x1 y1 : Z)
    (c : color.RGBA) :
  drawLine fuel img x0 y0 x1 y1 c =
  setAll c img <$> lineWrites fuel x0 y0 x1 y1.
Proof. apply drawLine_loop_writes. Qed.

Section LineLoop.
Variables x0 y0 x1 y1 dx dy sx sy : Z.
Hypothesis Hdx : 0 <= dx.
Hypothesis Hdy : 0 <= dy.
Hypothesis Hsx : sx = 1 \/ sx = -1.
Hypothesis Hsy : sy = 1 \/ sy = -1.
Hypothesis Hx1 : x1 = x0 + sx * dx.
Hypothesis Hy1 : y1 = y0 + sy * dy.
Hypothesis Hx0i : GoInt.in_int x0.
Hypothesis Hy0i : GoInt.in_int y0.
Hypothesis Hx1i : GoInt.in_int x1.
Hypothesis Hy1i : GoInt.in_int y1.
Hypothesis Hm : 3 * Z.max dx dy < 2 ^ 63.

Lemma wrap_id (z : Z) : - 2 ^ 63 <= z < 2 ^ 63 -> GoInt.wrap z = z.
Proof.
  intros H. apply wrap_small.
  unfold GoInt.in_int, GoInt.minInt, GoInt.maxInt. lia.
Qed.

Lemma coord_x (i : Z) : 0 <= i <= dx -> - 2 ^ 63 <= x0 + sx * i < 2 ^ 63.
Proof.
  unfold GoInt.in_int, GoInt.minInt, GoInt.maxInt in *.
  intros Hi. destruct Hsx as [-> | ->]; lia.
Qed.

Lemma coord_y (j : Z) : 0 <= j <= dy -> - 2 ^ 63 <= y0 + sy * j < 2 ^ 63.
Proof.
  unfold GoInt.in_int, GoInt.minInt, GoInt.maxInt in *.
  intros Hj. destruct Hsy as [-> | ->]; lia.
Qed.

(** At the end of the longer extent the shorter one is complete too. *)
Lemma lineInv_end (i j D : Z) :
  lineInv dx dy i j D -> lineSteps dx dy i j = Z.max dx dy ->
  i = dx /\ j = dy.
Proof.
  unfold lineInv, lineSteps. intros (Hi & Hj & HD & HK & Heq) Hs.
  destruct (Z.leb_spec dy dx) as [Hle | Hlt].
  - rewrite Z.max_l in * by lia. subst i. split; [done|].
    destruct (Z.eq_dec dx 0) as [-> | Hnz]; [lia|].
    assert (D = - (dx * (dy - j))) by lia. nia.
  - rewrite Z.max_r in * by lia. subst j. split; [|done].
    assert (D = dy * (dx - i)) by lia. nia.
Qed.

Lemma line_stop (fuel : nat) (i j D : Z) :
  lineInv dx dy i j D -> lineSteps dx dy i j = Z.max dx dy ->
  lineWrites_loop (S fuel) (x0 + sx * i) (y0 + sy * j) x1 y1 dx dy sx sy
    (dx - dy + D) = Some [(x0 + sx * i, y0 + sy * j)].
Proof.
  intros Hinv Hs. destruct (lineInv_end _ _ _ Hinv Hs) as [-> ->].
  cbn [lineWrites_loop]. rewrite <- Hx1, <- Hy1, !Z.eqb_refl. reflexivity.
Qed.

Lemma line_step (fuel : nat) (i j D : Z) :
  lineInv dx dy i j D -> lineSteps dx dy i j < Z.max dx dy ->
  exists i' j' D',
    lineInv dx dy i' j' D' /\
    lineSteps dx dy i' j' = lineSteps dx dy i j + 1 /\
    lineWrites_loop (S fuel) (x0 + sx * i) (y0 + sy * j) x1 y1 dx dy sx sy
      (dx - dy + D) =
    cons (x0 + sx * i, y0 + sy * j) <$>
      lineWrites_loop fuel (x0 + sx * i') (y0 + sy * j') x1 y1 dx dy sx sy
        (dx - dy + D').
Proof.
  intros Hinv Hs. pose proof Hinv as (Hi & Hj & HD & HK & Heq).
  change (2 ^ 63) with 9223372036854775808 in Hm.
  assert (Hw : forall z, - 9223372036854775808 <= z < 9223372036854775808 ->
                         GoInt.wrap z = z) by exact wrap_id.
  assert (Hcx : forall k, 0 <= k <= dx -> GoInt.wrap (x0 + sx * k) = x0 + sx * k)
    by (intros k Hk; apply wrap_id, coord_x, Hk).
  assert (Hcy : forall k, 0 <= k <= dy -> GoInt.wrap (y0 + sy * k) = y0 + sy * k)
    by (intros k Hk; apply wrap_id, coord_y, Hk).
  assert (F1 : i = dx -> j < dy -> 2 * D <= - 2 * dx).
  { intros -> Hlt. assert (D = - (dx * (dy - j))) by lia. nia. }
  assert (F2 : j = dy -> i < dx -> 2 * dy <= 2 * D).
  { intros -> Hlt. assert (D = dy * (dx - i)) by lia. nia. }
  assert (F3 : dx = dy -> D = 0).
  { intros E. rewrite (Heq E), E in HD. lia. }
  assert (HD' : forall i' j' D',
             D' - D = (j' - j) * dx - (i' - i) * dy -> D' = j' * dx - i' * dy).
  { intros i' j' D' E. rewrite HD in E. lia. }
  cbn [lineWrites_loop].
  assert (Hnot : (x0 + sx * i =? x1) && (y0 + sy * j =? y1) = false).
  { apply andb_false_iff. unfold lineSteps in Hs.
    destruct (Z.leb_spec dy dx).
    - left. apply Z.eqb_neq. destruct Hsx as [-> | ->]; lia.
    - right. apply Z.eqb_neq. destruct Hsy as [-> | ->]; lia. }
  rewrite Hnot. unfold GoInt.mul, GoInt.neg, GoInt.sub, GoInt.add.
  clear Hnot Hinv HD Hx1 Hy1 Hsx Hsy.
  rewrite (Hw (2 * (dx - dy + D))) by lia.
  rewrite (Hw (- dy)) by lia.
  rewrite Z.gtb_ltb.
  unfold lineSteps in *.
  destruct (Z.ltb_spec (- dy) (2 * (dx - dy + D))) as [Hc1 | Hc1];
  destruct (Z.ltb_spec (2 * (dx - dy + D)) dx) as [Hc2 | Hc2].
  - (* a step in x and in y *)
    exists (i + 1), (j + 1), (D + dx - dy).
    assert (i < dx) by (destruct (Z.leb_spec dy dx); lia).
    assert (j < dy) by (destruct (Z.leb_spec dy dx); lia).
    split; [unfold lineInv; repeat split; try lia; apply HD'; ring|].
    split; [destruct (dy <=? dx); lia|].
    rewrite (Hw (dx - dy + D - dy)) by lia.
    rewrite (Hw (dx - dy + D - dy + dx)) by lia.
    replace (x0 + sx * i + sx) with (x0 + sx * (i + 1)) by ring.
    replace (y0 + sy * j + sy) with (y0 + sy * (j + 1)) by ring.
    rewrite Hcx, Hcy by lia.
    do 2 f_equal. ring.
  - (* a step in x only *)
    exists (i + 1), j, (D - dy).
    assert (dy <= dx) by (destruct (Z.leb_spec dy dx); lia).
    assert (i < dx) by (destruct (Z.leb_spec dy dx); lia).
    split; [unfold lineInv; repeat split; try lia; apply HD'; ring|].
    split; [destruct (Z.leb_spec dy dx); lia|].
    rewrite (Hw (dx - dy + D - dy)) by lia.
    replace (x0 + sx * i + sx) with (x0 + sx * (i + 1)) by ring.
    rewrite Hcx by lia.
    do 2 f_equal. ring.
  - (* a step in y only *)
    exists i, (j + 1), (D + dx).
    assert (dx < dy) by (destruct (Z.leb_spec dy dx); lia).
    assert (j < dy) by (destruct (Z.leb_spec dy dx); lia).
    split; [unfold lineInv; repeat split; try lia; apply HD'; ring|].
    split; [destruct (Z.leb_spec dy dx); lia|].
    rewrite (Hw (dx - dy + D + dx)) by lia.
    replace (y0 + sy * j + sy) with (y0 + sy * (j + 1)) by ring.
    rewrite Hcy by lia.
    do 2 f_equal. ring.
  - (* no step at all cannot happen before the end *)
    exfalso. destruct (Z.leb_spec dy dx); lia.
Qed.

(** From any state of the loop: the run ends after the remaining steps
    of the longer extent, and every state it writes at satisfies the
    invariant. *)
Lemma line_run (n : nat) :
  forall (fuel : nat) (i j D : Z),
    lineInv dx dy i j D ->
    Z.of_nat n = Z.max dx dy - lineSteps dx dy i j ->
    (n < fuel)%nat ->
    exists ws,
      lineWrites_loop fuel (x0 + sx * i) (y0 + sy * j) x1 y1 dx dy sx sy
        (dx - dy + D) = Some ws /\
      length ws = S n /\
      ws !! 0%nat = Some (x0 + sx * i, y0 + sy * j) /\
      last ws = Some (x1, y1) /\
      forall (t : nat) (p : Z * Z), ws !! t = Some p ->
        exists i' j' D',
          p = (x0 + sx * i', y0 + sy * j') /\
          lineInv dx dy i' j' D' /\
          lineSteps dx dy i' j' = lineSteps dx dy i j + Z.of_nat t.
Proof.
  induction n as [|n IH]; intros fuel i j D Hinv Hn Hfuel;
    (destruct fuel as [|fuel]; [lia|]).
  - assert (Hs : lineSteps dx dy i j = Z.max dx dy) by lia.
    exists [(x0 + sx * i, y0 + sy * j)].
    split; [now apply line_stop|].
    destruct (lineInv_end _ _ _ Hinv Hs) as [Ei Ej].
    repeat split.
    + cbn. rewrite Ei, Ej, <- Hx1, <- Hy1. reflexivity.
    + intros t p Hp. destruct t as [|t]; [|now destruct t].
      injection Hp as <-. exists i, j, D.
      split; [done|]. split; [done|]. lia.
  - destruct (line_step fuel i j D Hinv) as (i' & j' & D' & Hinv' & Hs' & E);
      [lia|].
    destruct (IH fuel i' j' D' Hinv') as (ws & Ews & Hlen & H0 & Hlast & Hall);
      [lia..|].
    exists ((x0 + sx * i, y0 + sy * j) :: ws).
    split; [rewrite E, Ews; reflexivity|].
    split; [cbn; lia|]. split; [reflexivity|].
    split.
    { destruct ws as [|q ws]; [discriminate|]. exact Hlast. }
    intros [|t] p Hp.
    + injection Hp as <-. exists i, j, D.
      split; [done|]. split; [done|]. lia.
    + destruct (Hall t p Hp) as (i'' & j'' & D'' & -> & Hinv'' & Hs'').
      exists i'', j'', D''. split; [done|]. split; [done|]. lia.
Qed.

End LineLoop.

(** The set-up of drawLine for endpoints in the safe range. *)
Lemma drawLine_setup (x0 y0 x1 y1 : Z) :
  safe_endpoints x0 y0 x1 y1 ->
  GoInt.abs (GoInt.sub x1 x0) = Z.abs (x1 - x0) /\
  GoInt.abs (GoInt.sub y1 y0) = Z.abs (y1 - y0) /\
  GoInt.sub (Z.abs (x1 - x0)) (Z.abs (y1 - y0)) =
    Z.abs (x1 - x0) - Z.abs (y1 - y0) /\
  x1 = x0 + (if x0 >? x1 then -1 else 1) * Z.abs (x1 - x0) /\
  y1 = y0 + (if y0 >? y1 then -1 else 1) * Z.abs (y1 - y0).
Proof.
  unfold safe_endpoints. intros (_ & _ & _ & _ & Hm).
  change (2 ^ 63) with 9223372036854775808 in Hm.
  assert (Hw : forall z, - 9223372036854775808 <= z < 9223372036854775808 ->
                         GoInt.wrap z = z).
  { intros z Hz. apply wrap_small.
    unfold GoInt.in_int, GoInt.minInt, GoInt.maxInt. lia. }
  unfold GoInt.sub. rewrite (Hw (x1 - x0)), (Hw (y1 - y0)) by lia.
  rewrite !abs_small by lia. rewrite Hw by lia.
  rewrite !Z.gtb_ltb.
  repeat split; [destruct (Z.ltb_spec x1 x0) | destruct (Z.ltb_spec y1 y0)]; lia.
Qed.

(** drawLine on safe endpoints: it reaches its [break], and this is what
    it writes. *)
Lemma lineWrites_safe (fuel : nat) (x0 y0 x1 y1 : Z) :
  safe_endpoints x0 y0 x1 y1 ->
  (Z.to_nat (majorLength x0 y0 x1 y1) < fuel)%nat ->
  exists ws,
    lineWrites fuel x0 y0 x1 y1 = Some ws /\
    Z.of_nat (length ws) = majorLength x0 y0 x1 y1 + 1 /\
    ws !! 0%nat = Some (x0, y0) /\
    last ws = Some (x1, y1) /\
    forall (t : nat) (p : Z * Z), ws !! t = Some p ->
      inBox x0 y0 x1 y1 p /\ nearLine x0 y0 x1 y1 p /\
      majorStep x0 y0 x1 y1 t p.
Proof.
  intros Hsafe Hfuel.
  destruct (drawLine_setup _ _ _ _ Hsafe) as (Edx & Edy & Eerr & Hx1 & Hy1).
  pose proof Hsafe as (Hx0i & Hy0i & Hx1i & Hy1i & Hm).
  unfold lineWrites, majorLength in *. rewrite Edx, Edy, Eerr.
  set (dx := Z.abs (x1 - x0)) in *. set (dy := Z.abs (y1 - y0)) in *.
  set (sx := if x0 >? x1 then -1 else 1) in *.
  set (sy := if y0 >? y1 then -1 else 1) in *.
  assert (Hsx : sx = 1 \/ sx = -1) by (unfold sx; destruct (x0 >? x1); auto).
  assert (Hsy : sy = 1 \/ sy = -1) by (unfold sy; destruct (y0 >? y1); auto).
  assert (Hdx : 0 <= dx) by apply Z.abs_nonneg.
  assert (Hdy : 0 <= dy) by apply Z.abs_nonneg.
  assert (Hinv0 : lineInv dx dy 0 0 0) by (unfold lineInv; lia).
  destruct (line_run x0 y0 x1 y1 dx dy sx sy Hdx Hdy Hsx Hsy Hx1 Hy1
              Hx0i Hy0i Hx1i Hy1i Hm (Z.to_nat (Z.max dx dy)) fuel 0 0 0 Hinv0)
    as (ws & Ews & Hlen & H0 & Hlast & Hall).
  { unfold lineSteps. destruct (dy <=? dx); lia. }
  { exact Hfuel. }
  replace (x0 + sx * 0) with x0 in * by ring.
  replace (y0 + sy * 0) with y0 in * by ring.
  replace (dx - dy + 0) with (dx - dy) in * by ring.
  exists ws. split; [exact Ews|]. split; [lia|]. split; [exact H0|].
  split; [exact Hlast|].
  intros t p Hp.
  destruct (Hall t p Hp) as (i & j & D & -> & (Hi & Hj & HD & HK & Heq) & Hs).
  assert (Hst : lineSteps dx dy i j = Z.of_nat t).
  { rewrite Hs. unfold lineSteps. destruct (dy <=? dx); lia. }
  clear Hs Hall Hp Ews. unfold inBox, nearLine, majorStep, majorLength. cbn [fst snd].
  fold dx dy.
  replace (x0 + sx * i - x0) with (sx * i) by ring.
  replace (y0 + sy * j - y0) with (sy * j) by ring.
  assert (Ex : x1 - x0 = sx * dx) by lia.
  assert (Ey : y1 - y0 = sy * dy) by lia.
  rewrite Ex, Ey.
  assert (Habs : Z.abs (sx * dx * (sy * j) - sy * dy * (sx * i)) = Z.abs D).
  { replace (sx * dx * (sy * j) - sy * dy * (sx * i))
      with ((sx * sy) * D) by (rewrite HD; ring).
    destruct Hsx as [-> | ->], Hsy as [-> | ->]; cbn; lia. }
  rewrite Habs.
  assert (Hai : Z.abs (sx * i) = i) by (destruct Hsx as [-> | ->]; lia).
  assert (Haj : Z.abs (sy * j) = j) by (destruct Hsy as [-> | ->]; lia).
  rewrite Hai, Haj.
  unfold lineSteps in Hst.
  clear Habs HD Ex Ey Hai Haj Edx Edy Eerr Hm.
  split; [|split; [lia|]].
  - clear Hst. split.
    + destruct Hsx as [E | E]; rewrite E in *; lia.
    + destruct Hsy as [E | E]; rewrite E in *; lia.
  - clear Hx1 Hy1. destruct (Z.leb_spec dy dx); split; lia.
Qed.

(** ** Endpoints at the limits of [int] *)

Lemma wrap_mod (z : Z) : GoInt.wrap z mod 2 ^ 64 = z mod 2 ^ 64.
Proof.
  unfold GoInt.wrap. rewrite Zminus_mod_idemp_l. f_equal. ring.
Qed.

(** With the difference of the y coordinates wrapped round to 1, x and y
    advance together for ever: x - y stays what it was modulo 2^64, which
    is not what it is at the far endpoint. *)
Lemma lineWrites_loop_diverges (fuel : nat) :
  forall x y : Z,
    (x - y) mod 2 ^ 64 = 2 ^ 63 ->
    lineWrites_loop fuel x y 1 GoInt.maxInt 1 1 1 1 0 = None.
Proof.
  induction fuel as [|fuel IH]; intros x y Hxy; [reflexivity|].
  cbn [lineWrites_loop].
  assert (Hnot : (x =? 1) && (y =? GoInt.maxInt) = false).
  { apply andb_false_iff.
    destruct (Z.eqb_spec x 1) as [-> |]; [|now left].
    destruct (Z.eqb_spec y GoInt.maxInt) as [-> |]; [|now right].
    exfalso. vm_compute in Hxy. discriminate. }
  rewrite Hnot.
  change (GoInt.mul 2 0) with 0. change (GoInt.neg 1) with (-1).
  change (0 >? -1) with true. change (0 <? 1) with true. cbv iota beta.
  change (GoInt.sub 0 1) with (-1). change (GoInt.add (-1) 1) with 0.
  rewrite IH; [reflexivity|].
  unfold GoInt.add. rewrite Zminus_mod, !wrap_mod, <- Zminus_mod.
  rewrite <- Hxy. f_equal. ring.
Qed.

(** C8, as stated, fails: these four values are Go ints, and drawLine
    between them never reaches its [break]. *)
Lemma drawLine_never_breaks :
  GoInt.in_int 0 /\ GoInt.in_int GoInt.minInt /\
  GoInt.in_int 1 /\ GoInt.in_int GoInt.maxInt /\
  ~ (exists fuel ws,
       lineWrites fuel 0 GoInt.minInt 1 GoInt.maxInt = Some ws) /\
  ~ (exists fuel img',
       drawLine fuel (image.NewRGBA (image.Rect 0 0 200 80))
                0 GoInt.minInt 1 GoInt.maxInt color.Black = Some img').
Proof.
  assert (Hdiv : forall fuel,
             lineWrites fuel 0 GoInt.minInt 1 GoInt.maxInt = None).
  { intros fuel. unfold lineWrites.
    change (GoInt.abs (GoInt.sub 1 0)) with 1.
    change (GoInt.abs (GoInt.sub GoInt.maxInt GoInt.minInt)) with 1.
    change (0 >? 1) with false. change (GoInt.minInt >? GoInt.maxInt) with false.
    cbv iota. change (GoInt.sub 1 1) with 0.
    now apply lineWrites_loop_diverges. }
  assert (Hint : forall z, (GoInt.minInt <=? z) && (z <=? GoInt.maxInt) = true ->
                          GoInt.in_int z).
  { intros z Hz. apply andb_true_iff in Hz as [H1 H2].
    split; [now apply Z.leb_le|now apply Z.leb_le]. }
  split; [now apply Hint|]. split; [now apply Hint|].
  split; [now apply Hint|]. split; [now apply Hint|].
  split.
  - intros (fuel & ws & E). rewrite Hdiv in E. discriminate.
  - intros (fuel & img' & E). rewrite drawLine_writes, Hdiv in E. discriminate.
Qed.

(** More fuel does not change what a finished run has written. *)
Lemma lineWrites_loop_mono (fuel : nat) :
  forall (fuel' : nat) (x0 y0 x1 y1 dx dy sx sy err : Z) (ws : list (Z * Z)),
    lineWrites_loop fuel x0 y0 x1 y1 dx dy sx sy err = Some ws ->
    (fuel <= fuel')%nat ->
    lineWrites_loop fuel' x0 y0 x1 y1 dx dy sx sy err = Some ws.
Proof.
  induction fuel as [|fuel IH]; intros fuel' x0 y0 x1 y1 dx dy sx sy err ws E Hle;
    [discriminate|].
  destruct fuel' as [|fuel']; [lia|].
  cbn [lineWrites_loop] in *.
  destruct ((x0 =? x1) && (y0 =? y1)); [exact E|].
  destruct (GoInt.mul 2 err >? GoInt.neg dy), (GoInt.mul 2 err <? dx);
    match type of E with
    | _ <$> ?o = _ =>
        destruct o as [ws'|] eqn:E'; [|discriminate];
        rewrite (IH fuel' _ _ _ _ _ _ _ _ _ _ E') by lia; exact E
    end.
Qed.

Lemma lineWrites_mono (fuel fuel' : nat) (x0 y0 x1 y1 : Z) (ws : list (Z * Z)) :
  lineWrites fuel x0 y0 x1 y1 = Some ws -> (fuel <= fuel')%nat ->
  lineWrites fuel' x0 y0 x1 y1 = Some ws.
Proof. apply lineWrites_loop_mono. Qed.

(** ** Writing pixels *)

Lemma Set_canvas (img : image.RGBA) (x y : Z) (c : color.RGBA) :
  image.Bounds (image.Set_ img x y c) = image.Bounds img /\
  image.Stride (image.Set_ img x y c) = image.Stride img /\
  length (image.Pix (image.Set_ img x y c)) = length (image.Pix img).
Proof.
  unfold image.Set_. destruct (image.PointIn x y (image.Bounds img)); cbn;
    [rewrite length_insert|]; done.
Qed.

Lemma setAll_canvas (c : color.RGBA) (ws : list (Z * Z)) :
  forall img : image.RGBA,
    image.Bounds (setAll c img ws) = image.Bounds img /\
    image.Stride (setAll c img ws) = image.Stride img /\
    length (image.Pix (setAll c img ws)) = length (image.Pix img).
Proof.
  induction ws as [|p ws IH]; intros img; [done|].
  rewrite setAll_cons.
  destruct (IH (image.Set_ img p.1 p.2 c)) as (-> & -> & ->).
  apply Set_canvas.
Qed.

Lemma wellFormed_canvas (img img' : image.RGBA) :
  image.Bounds img' = image.Bounds img ->
  image.Stride img' = image.Stride img ->
  length (image.Pix img') = length (image.Pix img) ->
  wellFormed img -> wellFormed img'.
Proof. unfold wellFormed. intros -> -> ->. done. Qed.

Lemma wellFormed_Set (img : image.RGBA) (x y : Z) (c : color.RGBA) :
  wellFormed img -> wellFormed (image.Set_ img x y c).
Proof.
  destruct (Set_canvas img x y c) as (? & ? & ?). now apply wellFormed_canvas.
Qed.

Lemma PointIn_spec (x y : Z) (r : image.Rectangle) :
  image.PointIn x y r = true <->
  image.MinX r <= x < image.MaxX r /\ image.MinY r <= y < image.MaxY r.
Proof.
  unfold image.PointIn. rewrite !andb_true_iff, !Z.leb_le, !Z.ltb_lt. lia.
Qed.

Lemma PixOffset_bound (img : image.RGBA) (x y : Z) :
  wellFormed img -> image.PointIn x y (image.Bounds img) = true ->
  0 <= image.PixOffset img x y < Z.of_nat (length (image.Pix img)).
Proof.
  intros (HS & Hdx & Hdy & Hlen) Hin. apply PointIn_spec in Hin.
  unfold image.PixOffset. rewrite HS, Hlen. unfold image.Dx, image.Dy in *.
  nia.
Qed.

Lemma PixOffset_inj (img : image.RGBA) (x y x' y' : Z) :
  wellFormed img ->
  image.PointIn x y (image.Bounds img) = true ->
  image.PointIn x' y' (image.Bounds img) = true ->
  image.PixOffset img x y = image.PixOffset img x' y' ->
  x = x' /\ y = y'.
Proof.
  intros (HS & Hdx & Hdy & Hlen) Hin Hin'.
  apply PointIn_spec in Hin, Hin'.
  unfold image.PixOffset. rewrite HS. unfold image.Dx, image.Dy in *.
  intros E.
  assert (y = y') by nia. subst y'. lia.
Qed.

(** A write inside the rectangle is performed ... *)
Lemma At_Set_same (img : image.RGBA) (x y : Z) (c : color.RGBA) :
  wellFormed img -> image.PointIn x y (image.Bounds img) = true ->
  image.At (image.Set_ img x y c) x y = c.
Proof.
  intros Hwf Hin. pose proof (PixOffset_bound img x y Hwf Hin) as Hoff.
  unfold image.At, image.Set_. rewrite Hin. cbn. rewrite Hin.
  change (image.PixOffset _ x y) with (image.PixOffset img x y).
  rewrite list_lookup_insert_eq; [done|lia].
Qed.

(** ... and leaves every other pixel as it was. *)
Lemma At_Set_other (img : image.RGBA) (x y x' y' : Z) (c : color.RGBA) :
  wellFormed img -> (x, y) <> (x', y') ->
  image.At (image.Set_ img x y c) x' y' = image.At img x' y'.
Proof.
  intros Hwf Hne. unfold image.At, image.Set_.
  destruct (image.PointIn x y (image.Bounds img)) eqn:Hin; [|done]. cbn.
  destruct (image.PointIn x' y' (image.Bounds img)) eqn:Hin'; [|done].
  change (image.PixOffset _ x' y') with (image.PixOffset img x' y').
  rewrite list_lookup_insert_ne; [done|].
  pose proof (PixOffset_bound img x y Hwf Hin).
  pose proof (PixOffset_bound img x' y' Hwf Hin').
  intros E. apply Hne.
  destruct (PixOffset_inj img x y x' y' Hwf Hin Hin') as [-> ->]; [lia|done].
Qed.

Lemma wellFormed_setAll (c : color.RGBA) (ws : list (Z * Z)) (img : image.RGBA) :
  wellFormed img -> wellFormed (setAll c img ws).
Proof.
  destruct (setAll_canvas c ws img) as (? & ? & ?). now apply wellFormed_canvas.
Qed.

Lemma At_setAll_notin (c : color.RGBA) (ws : list (Z * Z)) :
  forall (img : image.RGBA) (x y : Z),
    wellFormed img -> (x, y) ∉ ws ->
    image.At (setAll c img ws) x y = image.At img x y.
Proof.
  induction ws as [|[x' y'] ws IH]; intros img x y Hwf Hnotin; [done|].
  rewrite setAll_cons. cbn [fst snd].
  apply not_elem_of_cons in Hnotin as [Hne Hnotin].
  rewrite IH; [|now apply wellFormed_Set|done].
  apply At_Set_other; [done|congruence].
Qed.

Lemma At_setAll_in (c : color.RGBA) (ws : list (Z * Z)) :
  forall (img : image.RGBA) (x y : Z),
    wellFormed img -> (x, y) ∈ ws ->
    image.PointIn x y (image.Bounds img) = true ->
    image.At (setAll c img ws) x y = c.
Proof.
  induction ws as [|[x' y'] ws IH]; intros img x y Hwf Hin Hpt.
  - now apply elem_of_nil in Hin.
  - rewrite setAll_cons. cbn [fst snd].
    destruct (decide ((x, y) ∈ ws)) as [Hrest | Hrest].
    + apply IH; [now apply wellFormed_Set|done|].
      now destruct (Set_canvas img x' y' c) as (-> & _).
    + apply elem_of_cons in Hin as [[= <- <-] | Hin]; [|contradiction].
      rewrite At_setAll_notin; [|now apply wellFormed_Set|done].
      now apply At_Set_same.
Qed.

(** ** The noise strokes *)

Lemma bind_Returns {A B : Type} (m : M A) (k : A -> M B) (w w' : World) (a : A) :
  m w = Returns a w' -> (m ≫= k) w = k a w'.
Proof. intros E. unfold mbind, M_bind. now rewrite E. Qed.

Lemma randInt_eq (max : Z) (w : World) :
  0 < max ->
  randInt max w = Returns (entropy w (cursor w) mod max) (advance w).
Proof.
  intros H. unfold randInt, mbind, M_bind, Rand.Int.
  destruct (Z.leb_spec max 0); [lia|reflexivity].
Qed.

Lemma strokes_length (n : nat) (width height : Z) (w : World) :
  length (strokes n width height w) = n.
Proof. unfold strokes. now rewrite length_fmap, length_seq. Qed.

Lemma strokes_lookup (n : nat) (width height : Z) (w : World) (i : nat)
    (s : Z * Z * Z * Z) :
  strokes n width height w !! i = Some s ->
  (i < n)%nat /\ s = strokeAt width height w i.
Proof.
  unfold strokes. rewrite list_lookup_fmap.
  destruct (seq 0 n !! i) as [k|] eqn:E; [|discriminate].
  apply lookup_seq in E as [-> Hlt]. now intros [= <-].
Qed.

Lemma strokeAt_first (width height : Z) (w : World) :
  strokeAt width height w 0 =
  (entropy w (cursor w) mod width,
   entropy w (S (cursor w)) mod height,
   entropy w (S (S (cursor w))) mod width,
   entropy w (S (S (S (cursor w)))) mod height).
Proof.
  unfold strokeAt.
  replace (cursor w + 4 * 0)%nat with (cursor w) by lia.
  replace (cursor w + 1)%nat with (S (cursor w)) by lia.
  replace (cursor w + 2)%nat with (S (S (cursor w))) by lia.
  replace (cursor w + 3)%nat with (S (S (S (cursor w)))) by lia.
  reflexivity.
Qed.

Lemma strokeAt_next (width height : Z) (w : World) (i : nat) :
  strokeAt width height w (S i) = strokeAt width height (skip 4 w) i.
Proof.
  unfold strokeAt, skip. cbn [cursor entropy].
  replace (cursor w + 4 * S i)%nat with (4 + cursor w + 4 * i)%nat by lia.
  reflexivity.
Qed.

Lemma strokes_S (n : nat) (width height : Z) (w : World) :
  strokes (S n) width height w =
  strokeAt width height w 0 :: strokes n width height (skip 4 w).
Proof.
  unfold strokes. cbn [seq fmap list_fmap]. f_equal.
  rewrite <- fmap_S_seq, <- list_fmap_compose.
  apply list_fmap_ext. intros _ i _. apply strokeAt_next.
Qed.

(** The endpoints of a stroke lie within [0,width) x [0,height). *)
Lemma strokeAt_range (width height : Z) (w : World) (i : nat) :
  0 < width -> 0 < height ->
  let '(x1, y1, x2, y2) := strokeAt width height w i in
  0 <= x1 < width /\ 0 <= y1 < height /\
  0 <= x2 < width /\ 0 <= y2 < height.
Proof.
  intros Hw Hh. unfold strokeAt.
  repeat split; apply Z.mod_pos_bound; assumption.
Qed.

(** Any four coordinates within the canvas are the endpoints drawn for
    some entropy: no coordinate constrains another. *)
Lemma strokeAt_onto (width height x1 y1 x2 y2 : Z) (c p i : nat) :
  0 <= x1 < width -> 0 <= y1 < height ->
  0 <= x2 < width -> 0 <= y2 < height ->
  exists e : nat -> Z,
    strokeAt width height (MkWorld e c p) i = (x1, y1, x2, y2).
Proof.
  intros H1 H2 H3 H4.
  exists (fun n => match (n - (c + 4 * i))%nat with
                   | 0%nat => x1 | 1%nat => y1 | 2%nat => x2 | _ => y2
                   end).
  unfold strokeAt. cbn [entropy cursor].
  replace (c + 4 * i - (c + 4 * i))%nat with 0%nat by lia.
  replace (c + 4 * i + 1 - (c + 4 * i))%nat with 1%nat by lia.
  replace (c + 4 * i + 2 - (c + 4 * i))%nat with 2%nat by lia.
  replace (c + 4 * i + 3 - (c + 4 * i))%nat with 3%nat by lia.
  now rewrite !Z.mod_small by lia.
Qed.

Lemma canvas_endpoints_safe (width height x1 y1 x2 y2 : Z) :
  width <= 2 ^ 61 -> height <= 2 ^ 61 ->
  0 <= x1 < width -> 0 <= y1 < height ->
  0 <= x2 < width -> 0 <= y2 < height ->
  safe_endpoints x1 y1 x2 y2 /\
  majorLength x1 y1 x2 y2 < Z.max width height.
Proof.
  change (2 ^ 61) with 2305843009213693952.
  unfold safe_endpoints, majorLength, GoInt.in_int, GoInt.minInt, GoInt.maxInt.
  change (2 ^ 63) with 9223372036854775808.
  intros. repeat split; lia.
Qed.

(** What one stroke writes: it is drawn completely, inside the box of
    its endpoints and hence inside the canvas. *)
Lemma stroke_writes (fuel : nat) (width height x1 y1 x2 y2 : Z) :
  width <= 2 ^ 61 -> height <= 2 ^ 61 ->
  (Z.to_nat (Z.max width height) <= fuel)%nat ->
  0 <= x1 < width -> 0 <= y1 < height ->
  0 <= x2 < width -> 0 <= y2 < height ->
  exists ws,
    lineWrites fuel x1 y1 x2 y2 = Some ws /\
    Z.of_nat (length ws) = majorLength x1 y1 x2 y2 + 1 /\
    ws !! 0%nat = Some (x1, y1) /\ last ws = Some (x2, y2) /\
    forall (t : nat) (p : Z * Z), ws !! t = Some p ->
      inBox x1 y1 x2 y2 p /\ nearLine x1 y1 x2 y2 p /\
      majorStep x1 y1 x2 y2 t p /\
      image.PointIn p.1 p.2 (image.Rect 0 0 width height) = true.
Proof.
  intros Hw Hh Hfuel Hx1 Hy1 Hx2 Hy2.
  destruct (canvas_endpoints_safe width height x1 y1 x2 y2) as [Hsafe Hlen];
    try assumption.
  destruct (lineWrites_safe fuel x1 y1 x2 y2 Hsafe)
    as (ws & E & Hl & H0 & Hlast & Hall); [lia|].
  exists ws. do 4 (split; [assumption|]).
  intros t p Hp. destruct (Hall t p Hp) as (Hbox & Hnear & Hstep).
  do 3 (split; [assumption|]).
  apply PointIn_spec. unfold inBox in Hbox. cbn. lia.
Qed.

Lemma skip_skip (n m : nat) (w : World) : skip n (skip m w) = skip (n + m) w.
Proof. unfold skip. cbn. f_equal. lia. Qed.

(** addDistortion draws the [n] strokes read off the entropy source, one
    after the other, and consumes four values for each. *)
Lemma addDistortion_loop_spec (width height : Z) (fuel : nat) (n : nat) :
  0 < width <= 2 ^ 61 -> 0 < height <= 2 ^ 61 ->
  (Z.to_nat (Z.max width height) <= fuel)%nat ->
  forall (img : image.RGBA) (w : World),
    addDistortion_loop n fuel img width height w =
    Returns (foldl (paintStroke fuel) img (strokes n width height w))
            (skip (4 * n) w).
Proof.
  intros Hw Hh Hfuel. induction n as [|n IH]; intros img w.
  - cbn. unfold mret, M_ret, skip. now destruct w.
  - cbn [addDistortion_loop].
    rewrite (bind_Returns _ _ _ _ _ (randInt_eq width w ltac:(lia))).
    rewrite (bind_Returns _ _ _ _ _ (randInt_eq height (advance w) ltac:(lia))).
    rewrite (bind_Returns _ _ _ _ _
               (randInt_eq width (advance (advance w)) ltac:(lia))).
    rewrite (bind_Returns _ _ _ _ _
               (randInt_eq height (advance (advance (advance w))) ltac:(lia))).
    cbn [advance entropy cursor fontParses].
    rewrite strokes_S, strokeAt_first. cbn [foldl].
    set (x1 := entropy w (cursor w) mod width).
    set (y1 := entropy w (S (cursor w)) mod height).
    set (x2 := entropy w (S (S (cursor w))) mod width).
    set (y2 := entropy w (S (S (S (cursor w)))) mod height).
    destruct (stroke_writes fuel width height x1 y1 x2 y2) as (ws & E & _);
      try lia; try (apply Z.mod_pos_bound; lia).
    unfold paintStroke at 2, strokeWrites. rewrite drawLine_writes, E.
    unfold mbind, M_bind, liftFuel. cbn [fmap option_fmap option_map default].
    change (advance (advance (advance (advance w)))) with (skip 4 w).
    rewrite IH, skip_skip. unfold id. do 2 f_equal. lia.
Qed.

(** ** The renderer *)

Lemma setAll_app (c : color.RGBA) (img : image.RGBA) (ws ws' : list (Z * Z)) :
  setAll c img (ws ++ ws') = setAll c (setAll c img ws) ws'.
Proof. apply foldl_app. Qed.

Lemma foldl_paintStroke (fuel : nat) (ss : list (Z * Z * Z * Z)) :
  forall img : image.RGBA,
    foldl (paintStroke fuel) img ss =
    setAll color.Black img (noisePixels fuel ss).
Proof.
  induction ss as [|s ss IH]; intros img; [reflexivity|].
  cbn [foldl]. rewrite IH. unfold noisePixels. cbn [mbind list_bind].
  now rewrite setAll_app.
Qed.

Lemma blankCanvas_white :
  image.Bounds blankCanvas = image.MkRect 0 0 200 80 /\
  image.Stride blankCanvas = 200 /\
  image.Pix blankCanvas = replicate (Z.to_nat (200 * 80)) color.White.
Proof. repeat split; vm_compute; reflexivity. Qed.

Lemma blankCanvas_wellFormed : wellFormed blankCanvas.
Proof.
  destruct blankCanvas_white as (HB & HS & HP).
  unfold wellFormed. rewrite HB, HS, HP, length_replicate.
  unfold image.Dx, image.Dy. cbn. lia.
Qed.

(** Where the text is put: on the baseline at y = 50, and as far from
    the left edge as from the right one, up to rounding to a pixel. *)
Lemma text_dot (tw : Z) :
  0 <= tw < 2 ^ 31 ->
  exists X : Z,
    fixed.P (fixed.Ceil (fixed.div (fixed.sub (fixed.I 200) tw) 2)) 50 =
      (64 * X, 64 * 50) /\
    -1 <= 2 * (64 * X) - (64 * 200 - tw) <= 127.
Proof.
  intros Htw. change (2 ^ 31) with 2147483648 in Htw.
  assert (Hw : forall z, - 2147483648 <= z < 2147483648 -> fixed.wrap32 z = z).
  { intros z Hz. unfold fixed.wrap32.
    change (2 ^ 31) with 2147483648. change (2 ^ 32) with 4294967296.
    rewrite Z.mod_small; lia. }
  unfold fixed.P, fixed.Ceil, fixed.div, fixed.sub.
  change (fixed.I 200) with 12800.
  rewrite (Hw (12800 - tw)) by lia.
  set (s := 12800 - tw). set (q := s ÷ 2).
  assert (Hq : -1 <= 2 * q - s <= 1).
  { unfold q. pose proof (Z.quot_rem' s 2). pose proof (Z.rem_bound_abs s 2).
    assert (Z.abs (Z.rem s 2) < 2) by lia. lia. }
  rewrite (Hw q) by lia. rewrite (Hw (q + 63)) by lia.
  rewrite Z.shiftr_div_pow2 by lia. change (2 ^ 6) with 64.
  set (X := (q + 63) / 64).
  assert (HX : 64 * X <= q + 63 < 64 * X + 64).
  { unfold X. pose proof (Z.div_mod (q + 63) 64).
    pose proof (Z.mod_pos_bound (q + 63) 64). lia. }
  rewrite !Z.shiftl_mul_pow2 by lia. change (2 ^ 6) with 64.
  rewrite (Hw (X * 64)) by lia. rewrite (Hw (50 * 64)) by lia.
  exists X. split; [f_equal; lia|]. unfold s in *. lia.
Qed.

Section RendererFacts.
Variable L : FontLib.
Variables (ttfFont : Font L) (face : Face L).
Hypothesis HParse : Parse_goregular L = Some ttfFont.
Hypothesis HNewFace : NewFace L ttfFont = Some face.

(** With the font available, generateImage returns the text layer with
    the ten strokes painted over it. *)
Lemma generateImage_returns (fuel : nat) (text : string) (w : World) :
  (200 <= fuel)%nat ->
  generateImage L fuel text w =
  Returns (setAll color.Black (textLayer L face text)
             (noisePixels fuel (strokes 10 200 80 w)))
          (MkWorld (entropy w) (40 + cursor w) (S (fontParses w))).
Proof.
  intros Hfuel. unfold generateImage, opentype_Parse, opentype_NewFace.
  unfold mbind at 1, M_bind at 1. rewrite HParse.
  unfold mbind at 1, M_bind at 1. rewrite HNewFace.
  unfold mret, M_ret. unfold addDistortion.
  rewrite (addDistortion_loop_spec 200 80 fuel 10); [|lia..].
  now rewrite foldl_paintStroke.
Qed.

Hypothesis Hkeeps : keeps_canvas L.

Lemma textLayer_canvas (text : string) :
  image.Bounds (textLayer L face text) = image.MkRect 0 0 200 80 /\
  image.Stride (textLayer L face text) = 200 /\
  length (image.Pix (textLayer L face text)) = Z.to_nat (200 * 80).
Proof.
  unfold textLayer. fold blankCanvas.
  destruct (Hkeeps blankCanvas face
              (fixed.P (fixed.Ceil (fixed.div (fixed.sub (fixed.I 200)
                 (MeasureString L face text)) 2)) 50) text) as (-> & -> & ->).
  destruct blankCanvas_white as (-> & -> & ->).
  now rewrite length_replicate.
Qed.

Lemma textLayer_wellFormed (text : string) : wellFormed (textLayer L face text).
Proof.
  destruct (textLayer_canvas text) as (HB & HS & HP).
  unfold wellFormed. rewrite HB, HS, HP.
  unfold image.Dx, image.Dy. cbn. lia.
Qed.

End RendererFacts.

(** C8, amended. For endpoints that are Go ints with three times the
    longer extent below 2^63 (so that no difference and no doubled error
    term leaves the range of int; all canvas coordinates are such),
    drawLine reaches its [break]: it performs exactly
    max(|dx|,|dy|) + 1 pixel writes, from (x0,y0) to (x1,y1), one pixel
    further along the longer extent at each iteration, in integer
    arithmetic only, and every pixel written lies in the bounding box of
    the endpoints and at most half a pixel from the ideal line. *)
Theorem drawLine_terminates (fuel : nat) (img : image.RGBA)
    (x0 y0 x1 y1 : Z) (c : color.RGBA) :
  safe_endpoints x0 y0 x1 y1 ->
  (Z.to_nat (majorLength x0 y0 x1 y1) < fuel)%nat ->
  exists ws,
    lineWrites fuel x0 y0 x1 y1 = Some ws /\
    drawLine fuel img x0 y0 x1 y1 c = Some (setAll c img ws) /\
    Z.of_nat (length ws) = majorLength x0 y0 x1 y1 + 1 /\
    ws !! 0%nat = Some (x0, y0) /\
    last ws = Some (x1, y1) /\
    forall (t : nat) (p : Z * Z), ws !! t = Some p ->
      inBox x0 y0 x1 y1 p /\ nearLine x0 y0 x1 y1 p /\
      majorStep x0 y0 x1 y1 t p.
Proof.
  intros Hsafe Hfuel.
  destruct (lineWrites_safe fuel x0 y0 x1 y1 Hsafe Hfuel)
    as (ws & E & Hlen & H0 & Hlast & Hall).
  exists ws. split; [exact E|].
  split; [now rewrite drawLine_writes, E|].
  auto.
Qed.

Lemma safe_endpoints_0_0_5_2 : safe_endpoints 0 0 5 2.
Proof.
  unfold safe_endpoints, GoInt.in_int, GoInt.minInt, GoInt.maxInt.
  change (2 ^ 63) with 9223372036854775808. lia.
Defined.

Lemma drawLine_terminates_witness :
  safe_endpoints 0 0 5 2 /\
  exists ws, lineWrites 6 0 0 5 2 = Some ws /\ Z.of_nat (length ws) = 6.
Proof.
  split; [exact safe_endpoints_0_0_5_2|].
  destruct (drawLine_terminates 6 blankCanvas 0 0 5 2 color.Black
              safe_endpoints_0_0_5_2) as (ws & E & _ & Hlen & _).
  - vm_compute. lia.
  - exists ws. split; [exact E|exact Hlen].
Defined.

Example lineWrites_0_0_5_2 :
  lineWrites 6 0 0 5 2 =
  Some [(0, 0); (1, 0); (2, 1); (3, 1); (4, 2); (5, 2)].
Proof. reflexivity. Qed.

(** When the loop reaches its [break] within the fuel, its first writes
    are all its writes. *)
Lemma firstWrites_loop_complete (fuel : nat) :
  forall (x0 y0 x1 y1 dx dy sx sy err : Z) (ws : list (Z * Z)),
    lineWrites_loop fuel x0 y0 x1 y1 dx dy sx sy err = Some ws ->
    firstWrites_loop fuel x0 y0 x1 y1 dx dy sx sy err = ws.
Proof.
  induction fuel as [|fuel IH]; intros x0 y0 x1 y1 dx dy sx sy err ws E;
    [discriminate|].
  cbn [lineWrites_loop firstWrites_loop] in *.
  destruct ((x0 =? x1) && (y0 =? y1)); [now injection E|].
  destruct (GoInt.mul 2 err >? GoInt.neg dy), (GoInt.mul 2 err <? dx);
    match type of E with
    | _ <$> ?o = _ =>
        destruct o as [ws'|] eqn:E'; [|discriminate];
        injection E as <-; f_equal; now apply IH
    end.
Qed.

Lemma firstWrites_complete (fuel : nat) (x0 y0 x1 y1 : Z) (ws : list (Z * Z)) :
  lineWrites fuel x0 y0 x1 y1 = Some ws -> firstWrites fuel x0 y0 x1 y1 = ws.
Proof. apply firstWrites_loop_complete. Qed.

Example firstWrites_0_0_5_2 :
  firstWrites 3 0 0 5 2 = [(0, 0); (1, 0); (2, 1)] /\
  firstWrites 9 0 0 5 2 = [(0, 0); (1, 0); (2, 1); (3, 1); (4, 2); (5, 2)].
Proof. split; reflexivity. Qed.

(** C10, as stated, fails: between these endpoints, which are Go ints,
    the difference of the y coordinates wraps round, and the third pixel
    drawLine writes has x = 2, outside the bounding box of the
    endpoints, whose x coordinates are 0 and 1. *)
Lemma drawLine_leaves_box :
  GoInt.in_int 0 /\ GoInt.in_int GoInt.minInt /\
  GoInt.in_int 1 /\ GoInt.in_int GoInt.maxInt /\
  firstWrites 3 0 GoInt.minInt 1 GoInt.maxInt =
    [(0, GoInt.minInt); (1, GoInt.minInt + 1); (2, GoInt.minInt + 2)] /\
  ~ inBox 0 GoInt.minInt 1 GoInt.maxInt (2, GoInt.minInt + 2).
Proof.
  assert (Hint : forall z, (GoInt.minInt <=? z) && (z <=? GoInt.maxInt) = true ->
                          GoInt.in_int z).
  { intros z Hz. apply andb_true_iff in Hz as [H1 H2].
    split; [now apply Z.leb_le|now apply Z.leb_le]. }
  split; [now apply Hint|]. split; [now apply Hint|].
  split; [now apply Hint|]. split; [now apply Hint|].
  split; [vm_compute; reflexivity|].
  unfold inBox. cbn [fst snd]. intros [Hx _].
  change (Z.max 0 1) with 1 in Hx. lia.
Qed.

(** C10, amended. On endpoints in the range where nothing overflows
    (three times the longer extent below 2^63) every pixel drawLine
    writes lies in the bounding box of its two endpoints.  Whatever the
    entropy, the ten strokes of addDistortion on the 200 x 80 canvas
    have their endpoints in [0,199] x [0,79], which is in that range;
    every write of every stroke lies in the bounding box of that
    stroke's endpoints, hence inside the canvas, where [Set] is not a
    no-op: the pixel is black afterwards. *)
Theorem noise_writes_inside_canvas (fuel : nat) (img : image.RGBA) (w : World) :
  (200 <= fuel)%nat ->
  wellFormed img ->
  image.Bounds img = image.Rect 0 0 200 80 ->
  addDistortion fuel img 200 80 w =
    Returns (setAll color.Black img (noisePixels fuel (strokes 10 200 80 w)))
            (skip 40 w) /\
  (forall (i : nat) (x1 y1 x2 y2 : Z),
     strokes 10 200 80 w !! i = Some (x1, y1, x2, y2) ->
     0 <= x1 <= 200 - 1 /\ 0 <= y1 <= 80 - 1 /\
     0 <= x2 <= 200 - 1 /\ 0 <= y2 <= 80 - 1 /\
     exists ws,
       lineWrites fuel x1 y1 x2 y2 = Some ws /\
       forall p, p ∈ ws ->
         inBox x1 y1 x2 y2 p /\
         image.PointIn p.1 p.2 (image.Bounds img) = true) /\
  (forall p, p ∈ noisePixels fuel (strokes 10 200 80 w) ->
     image.PointIn p.1 p.2 (image.Bounds img) = true /\
     image.At (setAll color.Black img
                 (noisePixels fuel (strokes 10 200 80 w))) p.1 p.2
       = color.Black) /\
  (forall (f : nat) (x0 y0 x1 y1 : Z) (ws : list (Z * Z)),
     safe_endpoints x0 y0 x1 y1 ->
     lineWrites f x0 y0 x1 y1 = Some ws ->
     forall p, p ∈ ws -> inBox x0 y0 x1 y1 p).
Proof.
  intros Hfuel Hwf HB.
  assert (Hstroke : forall (i : nat) (x1 y1 x2 y2 : Z),
     strokes 10 200 80 w !! i = Some (x1, y1, x2, y2) ->
     0 <= x1 <= 200 - 1 /\ 0 <= y1 <= 80 - 1 /\
     0 <= x2 <= 200 - 1 /\ 0 <= y2 <= 80 - 1 /\
     exists ws,
       lineWrites fuel x1 y1 x2 y2 = Some ws /\
       forall p, p ∈ ws ->
         inBox x1 y1 x2 y2 p /\
         image.PointIn p.1 p.2 (image.Bounds img) = true).
  { intros i x1 y1 x2 y2 Hs.
    apply strokes_lookup in Hs as [_ Hs].
    pose proof (strokeAt_range 200 80 w i) as Hr. rewrite <- Hs in Hr.
    destruct Hr as (Hx1 & Hy1 & Hx2 & Hy2); [lia..|].
    do 4 (split; [lia|]).
    destruct (stroke_writes fuel 200 80 x1 y1 x2 y2)
      as (ws & E & _ & _ & _ & Hall); try lia.
    exists ws. split; [exact E|]. intros p Hp.
    apply list_elem_of_lookup in Hp as [t Hp].
    destruct (Hall t p Hp) as (Hbox & _ & _ & Hin). rewrite HB. auto. }
  assert (Hpix : forall p, p ∈ noisePixels fuel (strokes 10 200 80 w) ->
                 image.PointIn p.1 p.2 (image.Bounds img) = true).
  { intros p Hp. unfold noisePixels in Hp.
    apply list_elem_of_bind in Hp as ([[[x1 y1] x2] y2] & Hp & Hs).
    apply list_elem_of_lookup in Hs as [i Hs].
    destruct (Hstroke i x1 y1 x2 y2 Hs) as (_ & _ & _ & _ & ws & E & Hall).
    unfold strokeWrites in Hp. rewrite E in Hp. now apply Hall. }
  split; [|split; [exact Hstroke|split]].
  - unfold addDistortion.
    rewrite (addDistortion_loop_spec 200 80 fuel 10); [|lia..].
    now rewrite foldl_paintStroke.
  - intros [x y] Hp. split; [now apply Hpix|].
    apply At_setAll_in; [done..|]. now apply (Hpix (x, y)).
  - intros f x0 y0 x1 y1 ws Hsafe E p Hp.
    destruct (lineWrites_safe (S (f + Z.to_nat (majorLength x0 y0 x1 y1)))
                x0 y0 x1 y1 Hsafe) as (ws' & E' & _ & _ & _ & Hall); [lia|].
    rewrite (lineWrites_mono f _ x0 y0 x1 y1 ws E) in E' by lia.
    injection E' as <-.
    apply list_elem_of_lookup in Hp as [t Hp]. now apply (Hall t p Hp).
Qed.

Lemma noise_writes_inside_canvas_witness :
  wellFormed blankCanvas /\
  image.At (setAll color.Black blankCanvas
              (noisePixels 200 (strokes 10 200 80 (MkWorld entropyA 0 0))))
           1 0 = color.Black.
Proof.
  split; [exact blankCanvas_wellFormed|].
  destruct (noise_writes_inside_canvas 200 blankCanvas (MkWorld entropyA 0 0))
    as (_ & _ & Hpix & _).
  - lia.
  - exact blankCanvas_wellFormed.
  - reflexivity.
  - apply (Hpix (1, 0)). vm_compute.
    apply list_elem_of_lookup. now exists 1%nat.
Defined.

Lemma dotFont_keeps_canvas : keeps_canvas dotFont.
Proof.
  intros img f dot s. cbn [DrawString dotFont].
  generalize (seq 0 (String.length s)). intros l. revert img.
  induction l as [|i l IH]; intros img; [done|].
  cbn [foldl]. destruct (IH (image.Set_ img (dot.1 ≫ 6 + 16 * Z.of_nat i)
                               (dot.2 ≫ 6) color.Black)) as (-> & -> & ->).
  apply Set_canvas.
Qed.

(** C7. For every text, generateImage returns a canvas of exactly
    200 x 80 pixels.  It starts from a canvas filled with white, has the
    text drawn with its dot on the baseline y = 50 and with the left and
    right margins equal up to rounding to a whole pixel, and then has
    exactly ten noise strokes drawn over it, each a straight run of
    pixels from its first endpoint to its second, both endpoints within
    the canvas and each of the four coordinates read from the entropy
    source on its own, so that every combination of endpoints occurs. *)
Theorem generateImage_canvas (L : FontLib) (ttfFont : Font L) (face : Face L)
    (fuel : nat) (text : string) (w : World) :
  keeps_canvas L ->
  Parse_goregular L = Some ttfFont ->
  NewFace L ttfFont = Some face ->
  0 <= MeasureString L face text < 2 ^ 31 ->
  (200 <= fuel)%nat ->
  exists (img : image.RGBA) (dotX : Z),
    generateImage L fuel text w =
      Returns img (MkWorld (entropy w) (40 + cursor w) (S (fontParses w))) /\
    image.Bounds img = image.MkRect 0 0 200 80 /\
    Z.of_nat (length (image.Pix img)) = 200 * 80 /\
    image.Pix blankCanvas = replicate (Z.to_nat (200 * 80)) color.White /\
    textLayer L face text =
      DrawString L blankCanvas face (64 * dotX, 64 * 50) text /\
    -1 <= 2 * (64 * dotX) - (64 * 200 - MeasureString L face text) <= 127 /\
    img = foldl (paintStroke fuel) (textLayer L face text)
                (strokes 10 200 80 w) /\
    length (strokes 10 200 80 w) = 10%nat /\
    (forall (i : nat) (x1 y1 x2 y2 : Z),
       strokes 10 200 80 w !! i = Some (x1, y1, x2, y2) ->
       0 <= x1 < 200 /\ 0 <= y1 < 80 /\ 0 <= x2 < 200 /\ 0 <= y2 < 80 /\
       exists ws,
         strokeWrites fuel (x1, y1, x2, y2) = ws /\
         lineWrites fuel x1 y1 x2 y2 = Some ws /\
         ws !! 0%nat = Some (x1, y1) /\ last ws = Some (x2, y2) /\
         forall (t : nat) (p : Z * Z), ws !! t = Some p ->
           nearLine x1 y1 x2 y2 p /\ majorStep x1 y1 x2 y2 t p) /\
    (forall (i : nat) (x1 y1 x2 y2 : Z),
       0 <= x1 < 200 -> 0 <= y1 < 80 -> 0 <= x2 < 200 -> 0 <= y2 < 80 ->
       exists e : nat -> Z,
         strokeAt 200 80 (MkWorld e (cursor w) (fontParses w)) i =
         (x1, y1, x2, y2)).
Proof.
  intros Hkeeps HParse HNewFace Htw Hfuel.
  destruct (text_dot (MeasureString L face text) Htw) as (X & Hdot & Hmid).
  destruct (textLayer_canvas L face Hkeeps text) as (HB & HS & HP).
  exists (setAll color.Black (textLayer L face text)
            (noisePixels fuel (strokes 10 200 80 w))), X.
  destruct (setAll_canvas color.Black (noisePixels fuel (strokes 10 200 80 w))
              (textLayer L face text)) as (HB' & HS' & HP').
  split; [now apply (generateImage_returns L ttfFont face HParse HNewFace)|].
  split; [now rewrite HB'|].
  split; [rewrite HP', HP; now rewrite Z2Nat.id by lia|].
  split; [apply blankCanvas_white|].
  split; [unfold textLayer; fold blankCanvas; now rewrite Hdot|].
  split; [exact Hmid|].
  split; [now rewrite foldl_paintStroke|].
  split; [apply strokes_length|].
  split.
  - intros i x1 y1 x2 y2 Hs. apply strokes_lookup in Hs as [_ Hs].
    pose proof (strokeAt_range 200 80 w i) as Hr. rewrite <- Hs in Hr.
    destruct Hr as (Hx1 & Hy1 & Hx2 & Hy2); [lia..|].
    do 4 (split; [lia|]).
    destruct (stroke_writes fuel 200 80 x1 y1 x2 y2)
      as (ws & E & _ & H0 & Hlast & Hall); try lia.
    exists ws. unfold strokeWrites. rewrite E.
    do 4 (split; [done|]).
    intros t p Hp. destruct (Hall t p Hp) as (_ & Hnear & Hstep & _). auto.
  - intros i x1 y1 x2 y2 Hx1 Hy1 Hx2 Hy2. now apply strokeAt_onto.
Qed.

Lemma generateImage_canvas_witness :
  keeps_canvas dotFont /\
  exists img w',
    generateImage dotFont 200 "3 + 4 = ?" (MkWorld entropyA 0 0) =
      Returns img w' /\
    image.Bounds img = image.MkRect 0 0 200 80.
Proof.
  split; [exact dotFont_keeps_canvas|].
  destruct (generateImage_canvas dotFont tt tt 200 "3 + 4 = ?"
              (MkWorld entropyA 0 0) dotFont_keeps_canvas eq_refl eq_refl)
    as (img & dotX & E & HB & _).
  - vm_compute. split; [discriminate|reflexivity].
  - lia.
  - exists img. eexists. split; [exact E|exact HB].
Defined.

(** C6, as stated, fails: here the draws of the two renders differ, and
    the two images are the same. *)
Lemma renders_can_coincide :
  strokes 10 200 80 (MkWorld entropyA 0 0) <>
  strokes 10 200 80 (MkWorld entropyB 0 0) /\
  exists img wA wB,
    generateImage dotFont 200 "3 + 4 = ?" (MkWorld entropyA 0 0) =
      Returns img wA /\
    generateImage dotFont 200 "3 + 4 = ?" (MkWorld entropyB 0 0) =
      Returns img wB.
Proof.
  split; [vm_compute; discriminate|].
  rewrite !(generateImage_returns dotFont tt tt eq_refl eq_refl) by lia.
  assert (E : setAll color.Black (textLayer dotFont tt "3 + 4 = ?")
                (noisePixels 200 (strokes 10 200 80 (MkWorld entropyA 0 0))) =
              setAll color.Black (textLayer dotFont tt "3 + 4 = ?")
                (noisePixels 200 (strokes 10 200 80 (MkWorld entropyB 0 0))))
    by (vm_compute; reflexivity).
  rewrite E. eexists _, _, _. split; reflexivity.
Qed.

(** C6, amended. The text layer, and with it the canvas dimensions, is a
    function of the text alone; the noise is a function of the forty
    values the render reads from the entropy source.  Two renders of one
    text agree on their dimensions and on every pixel that no stroke of
    either writes; they are the same image whenever their strokes are
    the same, so that differing images are likely but not guaranteed. *)
Theorem generateImage_layers (L : FontLib) (ttfFont : Font L) (face : Face L)
    (fuel : nat) (text : string) (w1 w2 : World) :
  keeps_canvas L ->
  Parse_goregular L = Some ttfFont ->
  NewFace L ttfFont = Some face ->
  (200 <= fuel)%nat ->
  exists (img1 img2 : image.RGBA) (w1' w2' : World),
    generateImage L fuel text w1 = Returns img1 w1' /\
    generateImage L fuel text w2 = Returns img2 w2' /\
    img1 = setAll color.Black (textLayer L face text)
             (noisePixels fuel (strokes 10 200 80 w1)) /\
    img2 = setAll color.Black (textLayer L face text)
             (noisePixels fuel (strokes 10 200 80 w2)) /\
    image.Bounds img1 = image.Bounds img2 /\
    length (image.Pix img1) = length (image.Pix img2) /\
    (forall x y : Z,
       (x, y) ∉ noisePixels fuel (strokes 10 200 80 w1) ->
       (x, y) ∉ noisePixels fuel (strokes 10 200 80 w2) ->
       image.At img1 x y = image.At (textLayer L face text) x y /\
       image.At img2 x y = image.At (textLayer L face text) x y) /\
    (strokes 10 200 80 w1 = strokes 10 200 80 w2 -> img1 = img2).
Proof.
  intros Hkeeps HParse HNewFace Hfuel.
  pose proof (textLayer_wellFormed L face Hkeeps text) as Hwf.
  eexists _, _, _, _.
  split; [now apply (generateImage_returns L ttfFont face HParse HNewFace)|].
  split; [now apply (generateImage_returns L ttfFont face HParse HNewFace)|].
  split; [reflexivity|]. split; [reflexivity|].
  destruct (setAll_canvas color.Black (noisePixels fuel (strokes 10 200 80 w1))
              (textLayer L face text)) as (-> & _ & ->).
  destruct (setAll_canvas color.Black (noisePixels fuel (strokes 10 200 80 w2))
              (textLayer L face text)) as (-> & _ & ->).
  split; [reflexivity|]. split; [reflexivity|].
  split.
  - intros x y H1 H2. now rewrite !At_setAll_notin.
  - now intros ->.
Qed.

Lemma generateImage_layers_witness :
  keeps_canvas dotFont /\
  exists img1 img2 w1' w2',
    generateImage dotFont 200 "3 + 4 = ?" (MkWorld entropyA 0 0) =
      Returns img1 w1' /\
    generateImage dotFont 200 "3 + 4 = ?" (MkWorld (tape []) 0 0) =
      Returns img2 w2' /\
    image.Bounds img1 = image.Bounds img2.
Proof.
  split; [exact dotFont_keeps_canvas|].
  destruct (generateImage_layers dotFont tt tt 200 "3 + 4 = ?"
              (MkWorld entropyA 0 0) (MkWorld (tape []) 0 0)
              dotFont_keeps_canvas eq_refl eq_refl)
    as (img1 & img2 & w1' & w2' & E1 & E2 & _ & _ & HB & _).
  - lia.
  - exists img1, img2, w1', w2'. auto.
Defined.

(** ** Font loading *)

Lemma generateImage_cases (L : FontLib) (fuel : nat) (text : string) (w : World) :
  (200 <= fuel)%nat ->
  match Parse_goregular L with
  | None => generateImage L fuel text w = Panics "opentype.Parse"
  | Some ttfFont =>
      match NewFace L ttfFont with
      | None => generateImage L fuel text w = Panics "opentype.NewFace"
      | Some face =>
          generateImage L fuel text w =
          Returns (setAll color.Black (textLayer L face text)
                     (noisePixels fuel (strokes 10 200 80 w)))
                  (MkWorld (entropy w) (40 + cursor w) (S (fontParses w)))
      end
  end.
Proof.
  intros Hfuel.
  destruct (Parse_goregular L) as [ttfFont|] eqn:HP.
  - destruct (NewFace L ttfFont) as [face|] eqn:HF.
    + now apply (generateImage_returns L ttfFont face HP HF).
    + unfold generateImage, opentype_Parse, opentype_NewFace.
      unfold mbind at 1, M_bind at 1. rewrite HP.
      unfold mbind at 1, M_bind at 1. now rewrite HF.
  - unfold generateImage, opentype_Parse.
    unfold mbind at 1, M_bind at 1. now rewrite HP.
Qed.

Lemma generateEquation_returns (w : World) :
  exists eqn ans,
    generateEquation w = Returns (eqn, ans) (advance (advance (advance w))).
Proof.
  destruct (drawOperands_spec w) as (op & a & b & E & _).
  eexists _, _. exact (generateEquation_unfold _ _ _ _ _ E).
Qed.

(** C5, as stated, fails: nothing is parsed at startup, the font is
    parsed again by each of two image requests, and with a font that
    does not parse it is the image request that fails. *)
Lemma font_parsed_on_every_render :
  fontParses (startup (tape [])).2 = 0%nat /\
  (exists rs st w',
     serve dotFont 200
       [GetCaptchaNew "tok" 0; GetCaptchaImage "tok"; GetCaptchaImage "tok"]
       (startup (tape [])).1 (startup (tape [])).2 = Returns (rs, st) w' /\
     fontParses w' = 2%nat) /\
  serve brokenFont 200 [GetCaptchaNew "tok" 0; GetCaptchaImage "tok"]
    (startup (tape [])).1 (startup (tape [])).2 = Panics "opentype.Parse".
Proof.
  split; [reflexivity|]. split.
  - eexists _, _, _. split; [vm_compute; reflexivity|reflexivity].
  - vm_compute. reflexivity.
Qed.

(** C5, amended. No font is loaded at startup.  Every call of
    generateImage parses the embedded font and makes a face from it
    anew; if either step fails that call panics, so a font-load failure
    is a failure of the image request being served; otherwise the call
    returns an image.  Serving a request parses the font once if the
    request is an image request for a stored token, and not at all
    otherwise. *)
Theorem font_loaded_per_render (L : FontLib) (fuel : nat) (text : string)
    (w : World) :
  (200 <= fuel)%nat ->
  (forall e, fontParses (startup e).2 = 0%nat) /\
  match Parse_goregular L with
  | None => generateImage L fuel text w = Panics "opentype.Parse"
  | Some ttfFont =>
      match NewFace L ttfFont with
      | None => generateImage L fuel text w = Panics "opentype.NewFace"
      | Some face =>
          generateImage L fuel text w =
          Returns (setAll color.Black (textLayer L face text)
                     (noisePixels fuel (strokes 10 200 80 w)))
                  (MkWorld (entropy w) (40 + cursor w) (S (fontParses w)))
      end
  end /\
  (forall rq st r st' w',
     handle L fuel rq st w = Returns (r, st') w' ->
     fontParses w' = (renders rq st + fontParses w)%nat).
Proof.
  intros Hfuel. split; [reflexivity|].
  split; [now apply generateImage_cases|].
  intros rq st r st' w' E. destruct rq as [uuid now|uuid now|id|id a];
    cbn [handle renders] in *.
  - destruct (generateEquation_returns w) as (eqn & ans & Eg).
    unfold indexPage, mbind, M_bind in E. rewrite Eg in E.
    now injection E as _ _ <-.
  - destruct (generateEquation_returns w) as (eqn & ans & Eg).
    unfold captchaNew, mbind, M_bind in E. rewrite Eg in E.
    now injection E as _ _ <-.
  - unfold captchaImage, StoreOps.peek in E.
    destruct (st !! id) as [entry|]; [|now injection E as _ _ <-].
    pose proof (generateImage_cases L fuel (equation entry) w Hfuel) as Hg.
    destruct (Parse_goregular L) as [ttfFont|].
    + destruct (NewFace L ttfFont) as [face|].
      * unfold mbind, M_bind in E. rewrite Hg in E.
        now injection E as _ _ <-.
      * unfold mbind, M_bind in E. now rewrite Hg in E.
    + unfold mbind, M_bind in E. now rewrite Hg in E.
  - now injection E as _ <-.
Qed.

Lemma font_loaded_per_render_witness :
  exists img w',
    generateImage dotFont 200 "3 + 4 = ?" (MkWorld entropyA 0 5) =
      Returns img w' /\
    fontParses w' = 6%nat.
Proof.
  destruct (font_loaded_per_render dotFont 200 "3 + 4 = ?"
              (MkWorld entropyA 0 5)) as (_ & E & _).
  - lia.
  - cbn [Parse_goregular NewFace dotFont] in E.
    eexists _, _. split; [exact E|reflexivity].
Defined.

(** ** GET /captcha/image/:id *)

(** C9. The image handler reads the store without changing it.  For a
    stored token it renders the equation text of the stored entry, which
    is the text generated when the token was created, and the token can
    be read again and consumed afterwards; for a token that is not
    stored it answers 404 and the store is as before. *)
Theorem peek_nondestructive (L : FontLib) (ttfFont : Font L) (face : Face L)
    (fuel : nat) (st : Store) (id : string) (now : Z) (w : World) :
  Parse_goregular L = Some ttfFont ->
  NewFace L ttfFont = Some face ->
  (200 <= fuel)%nat ->
  StoreOps.peek st id = (st !! id, st) /\
  (st !! id = None ->
   captchaImage L fuel st id w =
     Returns (AbortWithStatus StatusNotFound, st) w) /\
  (forall entry, st !! id = Some entry ->
     exists img w',
       generateImage L fuel (equation entry) w = Returns img w' /\
       captchaImage L fuel st id w = Returns (PNG img, st) w' /\
       StoreOps.peek (StoreOps.peek st id).2 id = (Some entry, st) /\
       StoreOps.consume (StoreOps.peek st id).2 id =
         (Some entry, delete id st)) /\
  (exists eqn ans w' r,
     generateEquation w = Returns (eqn, ans) w' /\
     captchaNew st id now w =
       Returns (r, StoreOps.create st id eqn ans now) w' /\
     (StoreOps.peek (StoreOps.create st id eqn ans now) id).1 =
       Some (CaptchaEntry eqn ans now) /\
     forall img w'',
       generateImage L fuel eqn w' = Returns img w'' ->
       captchaImage L fuel (StoreOps.create st id eqn ans now) id w' =
         Returns (PNG img, StoreOps.create st id eqn ans now) w'').
Proof.
  intros HP HF Hfuel. split; [reflexivity|]. split; [|split].
  - intros E. unfold captchaImage, StoreOps.peek. now rewrite E.
  - intros entry E.
    pose proof (generateImage_returns L ttfFont face HP HF fuel
                  (equation entry) w Hfuel) as Hg.
    eexists _, _. split; [exact Hg|].
    unfold captchaImage, StoreOps.peek. cbn [snd]. rewrite !E.
    split; [unfold mbind, M_bind; now rewrite Hg|].
    split; [done|]. now apply consume_present.
  - destruct (generateEquation_returns w) as (eqn & ans & Eg).
    eexists eqn, ans, _, _. split; [exact Eg|].
    unfold captchaNew, mbind, M_bind. rewrite Eg.
    split; [reflexivity|].
    unfold StoreOps.peek, StoreOps.create. cbn [fst].
    rewrite lookup_insert_eq. split; [reflexivity|].
    intros img w'' Hg. unfold captchaImage, StoreOps.peek.
    rewrite lookup_insert_eq. cbn [equation].
    unfold mbind, M_bind. now rewrite Hg.
Qed.

Lemma peek_nondestructive_witness :
  exists img w',
    captchaImage dotFont 200 sampleStore "tok" (MkWorld entropyA 0 0) =
      Returns (PNG img, sampleStore) w' /\
    captchaImage dotFont 200 sampleStore "other" (MkWorld entropyA 0 0) =
      Returns (AbortWithStatus StatusNotFound, sampleStore)
              (MkWorld entropyA 0 0).
Proof.
  destruct (peek_nondestructive dotFont tt tt 200 sampleStore "tok" 0
              (MkWorld entropyA 0 0) eq_refl eq_refl)
    as (_ & _ & Hstored & _); [lia|].
  destruct (peek_nondestructive dotFont tt tt 200 sampleStore "other" 0
              (MkWorld entropyA 0 0) eq_refl eq_refl)
    as (_ & Habsent & _); [lia|].
  destruct (Hstored sampleEntry eq_refl) as (img & w' & _ & E & _).
  exists img, w'. split; [exact E|]. apply Habsent. reflexivity.
Defined.

(** * Further properties *)

(** ** abs, getRandomNumber, randInt, calculateAnswer *)

(** abs negates negative values, except that the most negative int has
    no positive counterpart: there the negation wraps round and abs
    returns the value itself. *)
Theorem abs_minInt_edge (x : Z) :
  GoInt.in_int x ->
  GoInt.abs x = (if x =? GoInt.minInt then GoInt.minInt else Z.abs x) /\
  (0 <= GoInt.abs x <-> x <> GoInt.minInt).
Proof.
  unfold GoInt.in_int, GoInt.minInt, GoInt.maxInt.
  change (2 ^ 63) with 9223372036854775808. intros Hx.
  assert (Habs : GoInt.abs x =
                 if x =? -9223372036854775808 then -9223372036854775808
                 else Z.abs x).
  { unfold GoInt.abs, GoInt.neg.
    destruct (Z.eqb_spec x (-9223372036854775808)) as [-> | Hne];
      [reflexivity|].
    destruct (Z.ltb_spec x 0); [|lia].
    rewrite wrap_small; [lia|].
    unfold GoInt.in_int, GoInt.minInt, GoInt.maxInt.
    change (2 ^ 63) with 9223372036854775808. lia. }
  split; [exact Habs|]. rewrite Habs.
  destruct (Z.eqb_spec x (-9223372036854775808)); lia.
Qed.

Lemma abs_minInt_edge_witness :
  GoInt.abs (-5) = 5 /\ GoInt.abs GoInt.minInt = GoInt.minInt.
Proof.
  split.
  - apply (abs_minInt_edge (-5)). vm_compute. split; discriminate.
  - apply (abs_minInt_edge GoInt.minInt). vm_compute. split; discriminate.
Defined.

Lemma small_wrap (z : Z) : - 2 ^ 63 <= z < 2 ^ 63 -> GoInt.wrap z = z.
Proof.
  intros H. apply wrap_small.
  unfold GoInt.in_int, GoInt.minInt, GoInt.maxInt. lia.
Qed.

(** getRandomNumber(min, max) with min <= max returns a number of
    [min, max] after reading one value from the entropy source, and each
    number of that range is returned for some entropy. *)
Theorem getRandomNumber_between (min max : Z) (w : World) :
  - 2 ^ 61 <= min -> min <= max -> max <= 2 ^ 61 ->
  (exists n, getRandomNumber min max w = Returns n (advance w) /\
             min <= n <= max) /\
  (forall n, min <= n <= max ->
     exists e : nat -> Z,
       getRandomNumber min max (MkWorld e (cursor w) (fontParses w)) =
       Returns n (MkWorld e (S (cursor w)) (fontParses w))).
Proof.
  change (2 ^ 61) with 2305843009213693952. intros Hlo Hle Hhi.
  assert (Hw : forall z, - 9223372036854775808 <= z < 9223372036854775808 ->
                         GoInt.wrap z = z) by exact small_wrap.
  assert (Hmax : GoInt.add (GoInt.sub max min) 1 = max - min + 1).
  { unfold GoInt.add, GoInt.sub. rewrite (Hw (max - min)) by lia.
    apply Hw. lia. }
  split.
  - unfold getRandomNumber. rewrite Hmax.
    destruct (Rand_Int_range (max - min + 1) w) as (n & E & Hn); [lia|].
    unfold mbind, M_bind. rewrite E. unfold mret, M_ret, GoInt.add.
    rewrite Hw by lia. eexists. split; [reflexivity|lia].
  - intros n Hn. exists (fun _ => n - min).
    unfold getRandomNumber. rewrite Hmax. unfold mbind, M_bind.
    rewrite (Rand_Int_onto (max - min + 1) (n - min)) by (cbn; lia).
    unfold mret, M_ret, GoInt.add. rewrite Hw by lia.
    do 2 f_equal. lia.
Qed.

Lemma getRandomNumber_between_witness :
  exists n, getRandomNumber 1 20 (MkWorld (tape [25]) 0 0) =
              Returns n (MkWorld (tape [25]) 1 0) /\ 1 <= n <= 20.
Proof.
  destruct (getRandomNumber_between 1 20 (MkWorld (tape [25]) 0 0))
    as [(n & E & Hn) _].
  - vm_compute. discriminate.
  - lia.
  - vm_compute. discriminate.
  - exists n. split; [exact E|exact Hn].
Defined.

(** With max < min, both within +-2^61 so that their difference does
    not wrap round, the range is empty and getRandomNumber panics
    inside rand.Int instead of returning. *)
Theorem getRandomNumber_empty_range (min max : Z) (w : World) :
  - 2 ^ 61 <= max -> max < min -> min <= 2 ^ 61 ->
  getRandomNumber min max w = Panics "crypto/rand: argument to Int is <= 0".
Proof.
  change (2 ^ 61) with 2305843009213693952. intros Hlo Hlt Hhi.
  assert (Hw : forall z, - 9223372036854775808 <= z < 9223372036854775808 ->
                         GoInt.wrap z = z) by exact small_wrap.
  unfold getRandomNumber, GoInt.add, GoInt.sub.
  rewrite (Hw (max - min)) by lia. rewrite (Hw (max - min + 1)) by lia.
  unfold mbind, M_bind, Rand.Int.
  destruct (Z.leb_spec (max - min + 1) 0); [reflexivity|lia].
Qed.

Lemma getRandomNumber_empty_range_witness :
  getRandomNumber 1 0 (MkWorld (tape []) 0 0) =
  Panics "crypto/rand: argument to Int is <= 0".
Proof.
  apply (getRandomNumber_empty_range 1 0 (MkWorld (tape []) 0 0)).
  - vm_compute. discriminate.
  - lia.
  - vm_compute. discriminate.
Defined.

(** calculateAnswer returns 0 for every operator other than "+", "-"
    and "*"; for these three it returns the exact sum, difference or
    product whenever that fits an int, and an int in every case. *)
Theorem calculateAnswer_cases (a b : Z) (op : string) :
  (op <> "+" -> op <> "-" -> op <> "*" -> calculateAnswer a b op = 0) /\
  (GoInt.in_int (a + b) -> calculateAnswer a b "+" = a + b) /\
  (GoInt.in_int (a - b) -> calculateAnswer a b "-" = a - b) /\
  (GoInt.in_int (a * b) -> calculateAnswer a b "*" = a * b) /\
  GoInt.in_int (calculateAnswer a b op).
Proof.
  split; [|split; [|split; [|split]]].
  - intros H1 H2 H3. unfold calculateAnswer.
    apply String.eqb_neq in H1, H2, H3. now rewrite H1, H2, H3.
  - intros H. now apply wrap_small.
  - intros H. now apply wrap_small.
  - intros H. now apply wrap_small.
  - unfold calculateAnswer.
    destruct (op =? "+")%string; [apply wrap_in_int|].
    destruct (op =? "-")%string; [apply wrap_in_int|].
    destruct (op =? "*")%string; [apply wrap_in_int|].
    vm_compute. split; discriminate.
Qed.

Lemma calculateAnswer_cases_witness :
  calculateAnswer 3 4 "/" = 0 /\ calculateAnswer 3 4 "-" = -1.
Proof.
  destruct (calculateAnswer_cases 3 4 "/") as (H0 & _ & Hsub & _).
  split.
  - apply H0; discriminate.
  - apply Hsub. vm_compute. split; discriminate.
Defined.

(** ** generateEquation *)

Lemma generateEquation_skip3 (w : World) :
  exists eqn ans,
    generateEquation w = Returns (eqn, ans) (skip 3 w) /\
    0 <= ans <= 100.
Proof.
  destruct (drawOperands_spec w) as (op & a & b & E & H).
  exists (Sprintf_equation a op b), (calculateAnswer a b op).
  split; [exact (generateEquation_unfold _ _ _ _ _ E)|].
  destruct H as [(-> & Ha & Hb) | [(-> & Ha & Hb) | (-> & Ha & Hb)]];
    destruct (calculateAnswer_small a b) as (Hadd & Hsub & Hmul); try lia.
  rewrite Hmul. nia.
Qed.

(** Every generated answer lies in [0, 100], and generating reads
    exactly three values from the entropy source and parses no font. *)
Theorem generateEquation_answer_range (w : World) :
  exists eqn ans,
    generateEquation w = Returns (eqn, ans) (skip 3 w) /\
    0 <= ans <= 100.
Proof.
  destruct (drawOperands_spec w) as (op & a & b & E & H).
  exists (Sprintf_equation a op b), (calculateAnswer a b op).
  split; [exact (generateEquation_unfold _ _ _ _ _ E)|].
  destruct H as [(-> & Ha & Hb) | [(-> & Ha & Hb) | (-> & Ha & Hb)]];
    destruct (calculateAnswer_small a b) as (Hadd & Hsub & Hmul); try lia.
  rewrite Hmul. nia.
Qed.

(** ** Decimal text and strconv.Atoi *)

Lemma pretty_N_char_digit (d : N) :
  (d < 10)%N ->
  Strconv.is_digit (pretty_N_char d) = true /\
  Z.of_nat (nat_of_ascii (pretty_N_char d)) - 48 = Z.of_N d.
Proof.
  intros Hd.
  assert (Hcases : (d = 0 \/ d = 1 \/ d = 2 \/ d = 3 \/ d = 4 \/ d = 5 \/
                    d = 6 \/ d = 7 \/ d = 8 \/ d = 9)%N) by lia.
  repeat (destruct Hcases as [-> | Hcases]; [split; reflexivity|]).
  subst d. split; reflexivity.
Qed.

(** Reading back the digits that [pretty] puts in front of [s]. *)
Lemma digits_pretty_N_go (x : N) :
  forall s : string,
    Strconv.digits 0 (pretty_N_go x s) = Strconv.digits (Z.of_N x) s.
Proof.
  induction (N.lt_wf_0 x) as [x _ IH]. intros s.
  destruct (N.eq_dec x 0%N) as [-> | Hx]; [reflexivity|].
  rewrite pretty_N_go_step by lia.
  rewrite IH by (apply N.div_lt; lia).
  cbn [Strconv.digits].
  destruct (pretty_N_char_digit (x mod 10)%N) as [-> ->];
    [apply N.mod_lt; lia|].
  f_equal. rewrite N2Z.inj_mod, N2Z.inj_div.
  pose proof (Z.div_mod (Z.of_N x) 10). lia.
Qed.

Lemma pretty_N_go_head (x : N) :
  forall s : string,
    (0 < x)%N ->
    exists c s', pretty_N_go x s = String c s' /\ Strconv.is_digit c = true.
Proof.
  induction (N.lt_wf_0 x) as [x _ IH]. intros s Hx.
  rewrite pretty_N_go_step by lia.
  destruct (N.eq_dec (x / 10)%N 0%N) as [E | Hne].
  - rewrite E, pretty_N_go_0. eexists _, _. split; [reflexivity|].
    apply pretty_N_char_digit, N.mod_lt. lia.
  - apply IH; [apply N.div_lt; lia|]. now apply N.neq_0_lt_0.
Qed.

Lemma is_digit_not_sign (c : ascii) :
  Strconv.is_digit c = true ->
  Ascii.eqb c "-" = false /\ Ascii.eqb c "+" = false.
Proof.
  intros H. split.
  - destruct (Ascii.eqb_spec c "-") as [-> |]; [discriminate|reflexivity].
  - destruct (Ascii.eqb_spec c "+") as [-> |]; [discriminate|reflexivity].
Qed.

Lemma Atoi_pretty_pos (p : positive) :
  exists c s',
    pretty (Z.pos p) = String c s' /\ Strconv.is_digit c = true /\
    Strconv.digits 0 (pretty (Z.pos p)) = Some (Z.pos p).
Proof.
  change (pretty (Z.pos p)) with (pretty_N_go (N.pos p) "").
  destruct (pretty_N_go_head (N.pos p) "") as (c & s' & E & Hc); [lia|].
  exists c, s'. split; [exact E|]. split; [exact Hc|].
  now rewrite digits_pretty_N_go.
Qed.

(** An int written in decimal is read back by Atoi as itself. *)
Lemma Atoi_pretty (n : Z) :
  GoInt.in_int n -> Strconv.Atoi (pretty n) = Some n.
Proof.
  intros Hn. destruct n as [|p|p].
  - reflexivity.
  - destruct (Atoi_pretty_pos p) as (c & s' & E & Hc & Hd).
    rewrite E in *. unfold Strconv.Atoi.
    destruct (is_digit_not_sign c Hc) as [-> ->]. cbn [orb].
    rewrite Hd.
    destruct Hn as [H1 H2]. apply Z.leb_le in H1, H2. now rewrite H1, H2.
  - change (pretty (Z.neg p)) with (String "-" (pretty (Z.pos p))).
    destruct (Atoi_pretty_pos p) as (c & s' & E & Hc & Hd).
    unfold Strconv.Atoi. cbn [Ascii.eqb Bool.eqb orb].
    rewrite Hd. rewrite E.
    change (- Z.pos p) with (Z.neg p).
    destruct Hn as [H1 H2]. apply Z.leb_le in H1, H2. now rewrite H1, H2.
Qed.

(** ** Submitting answers *)

(** Submitting the stored answer written in decimal succeeds, and
    submitting any other int written in decimal is answered
    "incorrect"; either way the token is gone afterwards. *)
Theorem stored_answer_accepted (st : Store) (id : string)
    (entry : captchaEntry) :
  st !! id = Some entry ->
  GoInt.in_int (answer entry) ->
  validate st id (pretty (answer entry)) = (respSuccess, delete id st) /\
  (forall n : Z, GoInt.in_int n -> n <> answer entry ->
     validate st id (pretty n) = (respIncorrect, delete id st)).
Proof.
  intros E Hin. split.
  - rewrite validate_cases, E, Atoi_pretty by done. now rewrite decide_True.
  - intros n Hn Hne. rewrite validate_cases, E, Atoi_pretty by done.
    rewrite decide_False; [done|congruence].
Qed.

Lemma stored_answer_accepted_witness :
  validate sampleStore "tok" (pretty 7) = (respSuccess, delete "tok" sampleStore).
Proof.
  apply (stored_answer_accepted sampleStore "tok" sampleEntry).
  - reflexivity.
  - vm_compute. split; discriminate.
Defined.

Lemma issue_returns (st : Store) (id : string) (now : Z) (w : World) :
  exists eqn ans,
    generateEquation w = Returns (eqn, ans) (skip 3 w) /\
    0 <= ans <= 100 /\
    indexPage st id now w =
      Returns (HTML StatusOK "index.html" [("captchaID", id)],
               StoreOps.create st id eqn ans now) (skip 3 w) /\
    captchaNew st id now w =
      Returns (JSON StatusOK [("captchaID", id);
                              ("imageUrl", "/captcha/image/" +:+ id)],
               StoreOps.create st id eqn ans now) (skip 3 w).
Proof.
  destruct (generateEquation_skip3 w) as (eqn & ans & E & Hans).
  exists eqn, ans. split; [exact E|]. split; [exact Hans|].
  split; [unfold indexPage, mbind, M_bind; now rewrite E|].
  unfold captchaNew, mbind, M_bind; now rewrite E.
Qed.

(** Both pages that issue a challenge always answer 200, name the token
    they were given, store the generated challenge under it, and that
    challenge is solved by the generated answer written in decimal. *)
Theorem issued_challenge_solvable (st : Store) (id : string) (now : Z)
    (w : World) :
  exists eqn ans,
    generateEquation w = Returns (eqn, ans) (skip 3 w) /\
    indexPage st id now w =
      Returns (HTML StatusOK "index.html" [("captchaID", id)],
               StoreOps.create st id eqn ans now) (skip 3 w) /\
    captchaNew st id now w =
      Returns (JSON StatusOK [("captchaID", id);
                              ("imageUrl", "/captcha/image/" +:+ id)],
               StoreOps.create st id eqn ans now) (skip 3 w) /\
    validate (StoreOps.create st id eqn ans now) id (pretty ans) =
      (respSuccess, delete id st).
Proof.
  destruct (issue_returns st id now w) as (eqn & ans & E & Hans & Ei & En).
  exists eqn, ans. do 3 (split; [assumption|]).
  rewrite validate_cases. unfold StoreOps.create.
  rewrite lookup_insert_eq. cbn [answer].
  rewrite Atoi_pretty, decide_True, delete_insert_eq; [done..|].
  unfold GoInt.in_int, GoInt.minInt, GoInt.maxInt.
  change (2 ^ 63) with 9223372036854775808. lia.
Qed.

(** ** The store across requests *)

(** Storing under a token replaces whatever the token held, leaves every
    other token as it was, and the next consume of the token hands out
    exactly the stored entry; for a token that was free, that consume
    gives the store back as it was before. *)
Theorem create_then_consume (st : Store) (id id' eqn : string) (ans now : Z) :
  StoreOps.create st id eqn ans now !! id = Some (CaptchaEntry eqn ans now) /\
  (id' <> id -> StoreOps.create st id eqn ans now !! id' = st !! id') /\
  StoreOps.consume (StoreOps.create st id eqn ans now) id =
    (Some (CaptchaEntry eqn ans now), delete id st) /\
  (st !! id = None ->
   (StoreOps.consume (StoreOps.create st id eqn ans now) id).2 = st).
Proof.
  unfold StoreOps.create. split; [apply lookup_insert_eq|].
  split; [intros Hne; now apply lookup_insert_ne|].
  assert (E : StoreOps.consume (<[id:=CaptchaEntry eqn ans now]> st) id =
              (Some (CaptchaEntry eqn ans now), delete id st)).
  { rewrite (consume_present _ _ (CaptchaEntry eqn ans now))
      by apply lookup_insert_eq.
    now rewrite delete_insert_eq. }
  split; [exact E|]. intros Hfree. rewrite E. cbn [snd].
  now apply delete_id.
Qed.

Lemma create_then_consume_witness :
  StoreOps.create sampleStore "tok" "1 + 1 = ?" 2 5 !! "tok" =
    Some (CaptchaEntry "1 + 1 = ?" 2 5) /\
  (StoreOps.consume (StoreOps.create sampleStore "new" "1 + 1 = ?" 2 5)
     "new").2 = sampleStore.
Proof.
  split.
  - apply (create_then_consume sampleStore "tok" "tok" "1 + 1 = ?" 2 5).
  - apply (create_then_consume sampleStore "new" "tok" "1 + 1 = ?" 2 5).
    reflexivity.
Defined.

(** A submission only ever takes its own token out of the store: every
    other token keeps its entry, nothing is added, and the store shrinks
    by one entry exactly when the token was stored. *)
Theorem validate_only_own_token (st : Store) (id id' a : string) :
  (id' <> id -> (validate st id a).2 !! id' = st !! id') /\
  (validate st id a).2 ⊆ st /\
  size (validate st id a).2 =
    (size st - (match st !! id with Some _ => 1 | None => 0 end))%nat.
Proof.
  rewrite validate_store. split; [|split].
  - intros Hne. now apply lookup_delete_ne.
  - apply delete_subseteq.
  - destruct (st !! id) as [entry|] eqn:E.
    + rewrite map_size_delete_Some by eauto. lia.
    + rewrite map_size_delete_None by done. lia.
Qed.

Lemma validate_only_own_token_witness :
  (validate sampleStore "other" "7").2 !! "tok" = Some sampleEntry.
Proof.
  destruct (validate_only_own_token sampleStore "other" "tok" "7") as (H & _).
  rewrite H; [reflexivity|discriminate].
Defined.

Section Serving.
Variable L : FontLib.
Variable fuel : nat.

Lemma serve_cons_inv (rq : Request) (rqs : list Request) (st st' : Store)
    (w w' : World) (rs : list Response) :
  serve L fuel (rq :: rqs) st w = Returns (rs, st') w' ->
  exists r st1 w1 rs1,
    handle L fuel rq st w = Returns (r, st1) w1 /\
    serve L fuel rqs st1 w1 = Returns (rs1, st') w' /\
    rs = r :: rs1.
Proof.
  cbn [serve]. unfold mbind, M_bind.
  destruct (handle L fuel rq st w) as [[r st1] w1| |]; [|discriminate..].
  destruct (serve L fuel rqs st1 w1) as [[rs1 st2] w2| |] eqn:Es;
    [|discriminate..].
  intros [= <- <- <-]. now exists r, st1, w1, rs1.
Qed.

Lemma captchaImage_store (st st' : Store) (id : string) (r : Response)
    (w w' : World) :
  captchaImage L fuel st id w = Returns (r, st') w' ->
  st' = st /\
  match st !! id with
  | None => r = AbortWithStatus StatusNotFound
  | Some entry =>
      exists img, generateImage L fuel (equation entry) w = Returns img w' /\
                  r = PNG img
  end.
Proof.
  unfold captchaImage, StoreOps.peek.
  destruct (st !! id) as [entry|].
  - unfold mbind, M_bind.
    destruct (generateImage L fuel (equation entry) w) as [img w1| |];
      [|discriminate..].
    intros [= <- <- <-]. split; [reflexivity|]. now exists img.
  - now intros [= <- <- <-].
Qed.

(** One request leaves alone every token it neither creates nor
    submits. *)
Lemma handle_frame (rq : Request) (st st' : Store) (id : string)
    (r : Response) (w w' : World) :
  handle L fuel rq st w = Returns (r, st') w' ->
  creates rq id = false -> submits rq id = false ->
  st' !! id = st !! id.
Proof.
  destruct rq as [uuid now|uuid now|id0|id0 a]; cbn [handle creates submits];
    intros E Hc Hs.
  - destruct (issue_returns st uuid now w) as (eqn & ans & _ & _ & Ei & _).
    rewrite Ei in E. injection E as _ <- _.
    apply String.eqb_neq in Hc. now apply lookup_insert_ne.
  - destruct (issue_returns st uuid now w) as (eqn & ans & _ & _ & _ & En).
    rewrite En in E. injection E as _ <- _.
    apply String.eqb_neq in Hc. now apply lookup_insert_ne.
  - now destruct (captchaImage_store _ _ _ _ _ _ E) as [-> _].
  - injection E as E _.
    assert (Hst : st' = (validate st id0 a).2) by now rewrite E.
    rewrite Hst, validate_store.
    apply String.eqb_neq in Hs. now apply lookup_delete_ne.
Qed.

(** One request on a token that is not stored and that it does not
    create: it fails, and the token is still not stored. *)
Lemma handle_absent (rq : Request) (st st' : Store) (id : string)
    (r : Response) (w w' : World) :
  handle L fuel rq st w = Returns (r, st') w' ->
  st !! id = None -> creates rq id = false ->
  st' !! id = None /\
  (submits rq id = true -> r = respExpired) /\
  (rq = GetCaptchaImage id -> r = AbortWithStatus StatusNotFound).
Proof.
  intros E Hnone Hc.
  destruct (submits rq id) eqn:Hs.
  - destruct rq as [uuid now|uuid now|id0|id0 a]; try discriminate.
    cbn [submits] in Hs. apply String.eqb_eq in Hs as ->.
    cbn [handle] in E. rewrite (validate_absent _ _ _ Hnone) in E.
    injection E as <- <- _. split; [exact Hnone|]. split; [done|discriminate].
  - split; [now rewrite (handle_frame _ _ _ _ _ _ _ E Hc Hs)|].
    split; [discriminate|]. intros ->. cbn [handle] in E.
    destruct (captchaImage_store _ _ _ _ _ _ E) as [_ Hr].
    now rewrite Hnone in Hr.
Qed.

(** A token that is not stored stays so for as long as no request
    creates it, however the requests for it are mixed with requests for
    other tokens: every submission for it is answered "expired" and
    every image request for it 404. *)
Theorem absent_token_rejected (rqs : list Request) :
  forall (st st' : Store) (id : string) (w w' : World) (rs : list Response),
    st !! id = None ->
    Forall (fun rq => creates rq id = false) rqs ->
    serve L fuel rqs st w = Returns (rs, st') w' ->
    st' !! id = None /\
    length rs = length rqs /\
    forall (k : nat) (rq : Request) (r : Response),
      rqs !! k = Some rq -> rs !! k = Some r ->
      (submits rq id = true -> r = respExpired) /\
      (rq = GetCaptchaImage id -> r = AbortWithStatus StatusNotFound).
Proof.
  induction rqs as [|rq rqs IH]; intros st st' id w w' rs Hnone Hall E.
  - injection E as <- <- _. split; [exact Hnone|]. split; [reflexivity|].
    intros k rq r Hk. discriminate.
  - apply serve_cons_inv in E as (r & st1 & w1 & rs1 & Eh & Es & ->).
    apply Forall_cons in Hall as [Hc Hall].
    destruct (handle_absent _ _ _ _ _ _ _ Eh Hnone Hc) as (Hnone1 & Hr).
    destruct (IH st1 st' id w1 w' rs1 Hnone1 Hall Es) as (Hnone' & Hlen & Hrs).
    split; [exact Hnone'|]. split; [cbn; now rewrite Hlen|].
    intros [|k] rq' r' Hk Hr'.
    + injection Hk as <-. injection Hr' as <-. exact Hr.
    + now apply (Hrs k).
Qed.

(** There is no expiry: a stored challenge is still stored, unchanged,
    after any requests that neither submit an answer for its token nor
    store a new challenge under it, and each image request for it in
    between is answered with an image. *)
Theorem untouched_token_persists (rqs : list Request) :
  forall (st st' : Store) (id : string) (w w' : World) (rs : list Response),
    Forall (fun rq => creates rq id = false /\ submits rq id = false) rqs ->
    serve L fuel rqs st w = Returns (rs, st') w' ->
    st' !! id = st !! id /\
    forall (k : nat) (r : Response),
      is_Some (st !! id) ->
      rqs !! k = Some (GetCaptchaImage id) -> rs !! k = Some r ->
      exists img, r = PNG img.
Proof.
  induction rqs as [|rq rqs IH]; intros st st' id w w' rs Hall E.
  - injection E as <- <- _. split; [reflexivity|]. intros k r _ Hk. discriminate.
  - apply serve_cons_inv in E as (r & st1 & w1 & rs1 & Eh & Es & ->).
    apply Forall_cons in Hall as [[Hc Hs] Hall].
    pose proof (handle_frame _ _ _ _ _ _ _ Eh Hc Hs) as Hsame.
    destruct (IH st1 st' id w1 w' rs1 Hall Es) as (Hsame' & Hrs).
    split; [now rewrite Hsame', Hsame|].
    intros [|k] r' Hsome Hk Hr'.
    + injection Hk as ->. injection Hr' as <-. cbn [handle] in Eh.
      destruct (captchaImage_store _ _ _ _ _ _ Eh) as [_ Himg].
      destruct Hsome as [entry Hentry]. rewrite Hentry in Himg.
      destruct Himg as (img & _ & ->). now exists img.
    + apply (Hrs k r'); [now rewrite Hsame|done..].
Qed.

End Serving.

Lemma absent_token_rejected_witness :
  exists rs st' w',
    serve dotFont 200
      [PostValidate "other" "7"; GetCaptchaImage "other"; PostValidate "tok" "7"]
      sampleStore (MkWorld (tape []) 0 0) = Returns (rs, st') w' /\
    st' !! "other" = None /\ length rs = 3%nat.
Proof.
  destruct (serve dotFont 200
      [PostValidate "other" "7"; GetCaptchaImage "other"; PostValidate "tok" "7"]
      sampleStore (MkWorld (tape []) 0 0)) as [[rs st'] w'| |] eqn:E;
    [|vm_compute in E; discriminate..].
  destruct (absent_token_rejected dotFont 200
              [PostValidate "other" "7"; GetCaptchaImage "other";
               PostValidate "tok" "7"] sampleStore st' "other"
              (MkWorld (tape []) 0 0) w' rs) as (Hnone & Hlen & _).
  - reflexivity.
  - repeat constructor.
  - exact E.
  - exists rs, st', w'. split; [reflexivity|]. split; [exact Hnone|exact Hlen].
Defined.

Lemma untouched_token_persists_witness :
  exists rs st' w',
    serve dotFont 200
      [GetCaptchaNew "a" 0; PostValidate "a" "3"; GetCaptchaImage "zzz"]
      sampleStore (MkWorld (tape []) 0 0) = Returns (rs, st') w' /\
    st' !! "tok" = Some sampleEntry.
Proof.
  destruct (serve dotFont 200
      [GetCaptchaNew "a" 0; PostValidate "a" "3"; GetCaptchaImage "zzz"]
      sampleStore (MkWorld (tape []) 0 0)) as [[rs st'] w'| |] eqn:E;
    [|vm_compute in E; discriminate..].
  destruct (untouched_token_persists dotFont 200
              [GetCaptchaNew "a" 0; PostValidate "a" "3"; GetCaptchaImage "zzz"]
              sampleStore st' "tok"
              (MkWorld (tape []) 0 0) w' rs) as (Hsame & _).
  - repeat constructor.
  - exact E.
  - exists rs, st', w'. split; [reflexivity|]. rewrite Hsame. reflexivity.
Defined.

(** ** The shape of a rasterised line *)

(** The states at which drawLine writes, for endpoints in the safe
    range: the [t]-th write happens after [t] iterations. *)
Lemma lineWrites_states (fuel : nat) (x0 y0 x1 y1 : Z) :
  safe_endpoints x0 y0 x1 y1 ->
  (Z.to_nat (majorLength x0 y0 x1 y1) < fuel)%nat ->
  exists ws,
    lineWrites fuel x0 y0 x1 y1 = Some ws /\
    Z.of_nat (length ws) = majorLength x0 y0 x1 y1 + 1 /\
    forall (t : nat) (p : Z * Z), ws !! t = Some p ->
      exists i j D,
        p = (x0 + (if x0 >? x1 then -1 else 1) * i,
             y0 + (if y0 >? y1 then -1 else 1) * j) /\
        lineInv (Z.abs (x1 - x0)) (Z.abs (y1 - y0)) i j D /\
        lineSteps (Z.abs (x1 - x0)) (Z.abs (y1 - y0)) i j = Z.of_nat t.
Proof.
  intros Hsafe Hfuel.
  destruct (drawLine_setup _ _ _ _ Hsafe) as (Edx & Edy & Eerr & Hx1 & Hy1).
  pose proof Hsafe as (Hx0i & Hy0i & Hx1i & Hy1i & Hm).
  unfold lineWrites, majorLength in *. rewrite Edx, Edy, Eerr.
  set (dx := Z.abs (x1 - x0)) in *. set (dy := Z.abs (y1 - y0)) in *.
  set (sx := if x0 >? x1 then -1 else 1) in *.
  set (sy := if y0 >? y1 then -1 else 1) in *.
  assert (Hsx : sx = 1 \/ sx = -1) by (unfold sx; destruct (x0 >? x1); auto).
  assert (Hsy : sy = 1 \/ sy = -1) by (unfold sy; destruct (y0 >? y1); auto).
  assert (Hdx : 0 <= dx) by apply Z.abs_nonneg.
  assert (Hdy : 0 <= dy) by apply Z.abs_nonneg.
  assert (Hinv0 : lineInv dx dy 0 0 0) by (unfold lineInv; lia).
  destruct (line_run x0 y0 x1 y1 dx dy sx sy Hdx Hdy Hsx Hsy Hx1 Hy1
              Hx0i Hy0i Hx1i Hy1i Hm (Z.to_nat (Z.max dx dy)) fuel 0 0 0 Hinv0)
    as (ws & Ews & Hlen & _ & _ & Hall).
  { unfold lineSteps. destruct (dy <=? dx); lia. }
  { exact Hfuel. }
  replace (x0 + sx * 0) with x0 in * by ring.
  replace (y0 + sy * 0) with y0 in * by ring.
  replace (dx - dy + 0) with (dx - dy) in * by ring.
  exists ws. split; [exact Ews|]. split; [lia|].
  intros t p Hp.
  destruct (Hall t p Hp) as (i & j & D & -> & Hinv & Hs).
  exists i, j, D. split; [reflexivity|]. split; [exact Hinv|].
  rewrite Hs. unfold lineSteps. destruct (dy <=? dx); lia.
Qed.

(** Between two consecutive states the longer extent advances by one
    and the shorter one by one or not at all. *)
Lemma lineInv_consecutive (dx dy i1 j1 D1 i2 j2 D2 t : Z) :
  lineInv dx dy i1 j1 D1 -> lineInv dx dy i2 j2 D2 ->
  lineSteps dx dy i1 j1 = t -> lineSteps dx dy i2 j2 = t + 1 ->
  (i2 = i1 \/ i2 = i1 + 1) /\ (j2 = j1 \/ j2 = j1 + 1) /\
  (i2 <> i1 \/ j2 <> j1).
Proof.
  unfold lineInv, lineSteps.
  intros (Hi1 & Hj1 & HD1 & HK1 & He1) (Hi2 & Hj2 & HD2 & HK2 & He2) Hs1 Hs2.
  destruct (Z.leb_spec dy dx) as [Hle | Hlt].
  - rewrite Z.max_l in * by lia. subst i1. subst i2.
    assert (Hd : (j2 - j1) * dx = D2 - D1 + dy) by (rewrite HD1, HD2; ring).
    destruct (Z.eq_dec dx dy) as [E | Hne].
    + specialize (He1 E). specialize (He2 E). lia.
    + assert (j2 - j1 < 2) by nia.
      assert (-1 < j2 - j1) by (destruct (Z.eq_dec dy 0); [lia|nia]).
      lia.
  - rewrite Z.max_r in * by lia. subst j1. subst j2.
    assert (Hd : (i2 - i1) * dy = D1 - D2 + dx) by (rewrite HD1, HD2; ring).
    assert (i2 - i1 < 2) by nia.
    assert (-1 < i2 - i1) by (destruct (Z.eq_dec dx 0); [lia|nia]).
    lia.
Qed.

(** The pixels of a line form a chain without gaps and without
    repetition: each write is the previous one moved by one pixel
    towards the far endpoint in x, in y, or in both. *)
Theorem lineWrites_connected (fuel : nat) (x0 y0 x1 y1 : Z) :
  safe_endpoints x0 y0 x1 y1 ->
  (Z.to_nat (majorLength x0 y0 x1 y1) < fuel)%nat ->
  exists ws,
    lineWrites fuel x0 y0 x1 y1 = Some ws /\
    NoDup ws /\
    forall (t : nat) (p q : Z * Z),
      ws !! t = Some p -> ws !! S t = Some q ->
      (q.1 = p.1 \/ q.1 = p.1 + Z.sgn (x1 - x0)) /\
      (q.2 = p.2 \/ q.2 = p.2 + Z.sgn (y1 - y0)) /\
      p <> q.
Proof.
  intros Hsafe Hfuel.
  destruct (lineWrites_states fuel x0 y0 x1 y1 Hsafe Hfuel)
    as (ws & E & _ & Hall).
  exists ws. split; [exact E|].
  set (sx := if x0 >? x1 then -1 else 1) in *.
  set (sy := if y0 >? y1 then -1 else 1) in *.
  assert (Hsx : sx = 1 \/ sx = -1) by (unfold sx; destruct (x0 >? x1); auto).
  assert (Hsy : sy = 1 \/ sy = -1) by (unfold sy; destruct (y0 >? y1); auto).
  split.
  - apply NoDup_alt. intros t t' p Hp Hp'.
    destruct (Hall t p Hp) as (i & j & D & -> & _ & Hs).
    destruct (Hall t' _ Hp') as (i' & j' & D' & Heq & _ & Hs').
    injection Heq as Hx Hy.
    assert (i = i') by (destruct Hsx as [Es | Es]; rewrite Es in Hx; lia).
    assert (j = j') by (destruct Hsy as [Es | Es]; rewrite Es in Hy; lia).
    subst i' j'. lia.
  - intros t p q Hp Hq.
    destruct (Hall t p Hp) as (i1 & j1 & D1 & -> & Hinv1 & Hs1).
    destruct (Hall (S t) q Hq) as (i2 & j2 & D2 & -> & Hinv2 & Hs2).
    destruct (lineInv_consecutive _ _ _ _ _ _ _ _ (Z.of_nat t) Hinv1 Hinv2 Hs1)
      as (Hi & Hj & Hmove); [lia|].
    cbn [fst snd].
    assert (Hgx : i2 = i1 + 1 -> sx = Z.sgn (x1 - x0)).
    { intros Ei. destruct Hinv2 as (Hi2 & _). destruct Hinv1 as (Hi1 & _).
      unfold sx. rewrite Z.gtb_ltb. destruct (Z.ltb_spec x1 x0); lia. }
    assert (Hgy : j2 = j1 + 1 -> sy = Z.sgn (y1 - y0)).
    { intros Ej. destruct Hinv2 as (_ & Hj2 & _). destruct Hinv1 as (_ & Hj1 & _).
      unfold sy. rewrite Z.gtb_ltb. destruct (Z.ltb_spec y1 y0); lia. }
    split; [|split].
    + destruct Hi as [-> | Ei]; [now left|right].
      rewrite <- (Hgx Ei), Ei. ring.
    + destruct Hj as [-> | Ej]; [now left|right].
      rewrite <- (Hgy Ej), Ej. ring.
    + intros [= Hx Hy].
      assert (i1 = i2) by (destruct Hsx as [Es | Es]; rewrite Es in Hx; lia).
      assert (j1 = j2) by (destruct Hsy as [Es | Es]; rewrite Es in Hy; lia).
      lia.
Qed.

(** For endpoints in the safe range, horizontal, vertical and diagonal
    lines are exact: the [t]-th write is the start moved [t] pixels
    straight towards the end. *)
Theorem lineWrites_exact (fuel : nat) (x0 y0 x1 y1 : Z) :
  safe_endpoints x0 y0 x1 y1 ->
  (Z.to_nat (majorLength x0 y0 x1 y1) < fuel)%nat ->
  y1 = y0 \/ x1 = x0 \/ Z.abs (x1 - x0) = Z.abs (y1 - y0) ->
  exists ws,
    lineWrites fuel x0 y0 x1 y1 = Some ws /\
    Z.of_nat (length ws) = majorLength x0 y0 x1 y1 + 1 /\
    forall (t : nat) (p : Z * Z), ws !! t = Some p ->
      p = (x0 + Z.sgn (x1 - x0) * Z.of_nat t,
           y0 + Z.sgn (y1 - y0) * Z.of_nat t).
Proof.
  intros Hsafe Hfuel Hshape.
  destruct (lineWrites_states fuel x0 y0 x1 y1 Hsafe Hfuel)
    as (ws & E & Hlen & Hall).
  exists ws. split; [exact E|]. split; [exact Hlen|].
  intros t p Hp.
  destruct (Hall t p Hp) as (i & j & D & -> & Hinv & Hs).
  destruct Hinv as (Hi & Hj & _ & _ & Heq). unfold lineSteps in Hs.
  rewrite !Z.gtb_ltb.
  assert (Ex : (if x1 <? x0 then -1 else 1) * i = Z.sgn (x1 - x0) * i).
  { destruct (Z.ltb_spec x1 x0); [|destruct (Z.eq_dec x1 x0)].
    - f_equal. lia.
    - replace i with 0 by lia. ring.
    - f_equal. lia. }
  assert (Ey : (if y1 <? y0 then -1 else 1) * j = Z.sgn (y1 - y0) * j).
  { destruct (Z.ltb_spec y1 y0); [|destruct (Z.eq_dec y1 y0)].
    - f_equal. lia.
    - replace j with 0 by lia. ring.
    - f_equal. lia. }
  rewrite Ex, Ey. clear Ex Ey.
  set (dx := Z.abs (x1 - x0)) in *. set (dy := Z.abs (y1 - y0)) in *.
  destruct Hshape as [Hy | [Hx | Hd]].
  - assert (Z.sgn (y1 - y0) = 0 /\ dy = 0) as [-> Hdy0] by (unfold dy; lia).
    assert (i = Z.of_nat t) as -> by (destruct (Z.leb_spec dy dx); lia).
    f_equal; ring.
  - assert (Z.sgn (x1 - x0) = 0 /\ dx = 0) as [-> Hdx0] by (unfold dx; lia).
    assert (j = Z.of_nat t) as -> by (destruct (Z.leb_spec dy dx); lia).
    f_equal; ring.
  - specialize (Heq Hd). rewrite Hd, Z.leb_refl in Hs. subst. reflexivity.
Qed.

Lemma lineWrites_connected_witness :
  exists ws, lineWrites 6 0 0 5 2 = Some ws /\ NoDup ws.
Proof.
  destruct (lineWrites_connected 6 0 0 5 2 safe_endpoints_0_0_5_2)
    as (ws & E & Hnd & _).
  - vm_compute. lia.
  - exists ws. split; [exact E|exact Hnd].
Defined.

Lemma lineWrites_exact_witness :
  exists ws, lineWrites 6 3 7 (-2) 2 = Some ws /\
             ws !! 2%nat = Some (1, 5).
Proof.
  destruct (lineWrites_exact 6 3 7 (-2) 2) as (ws & E & Hlen & Hall).
  - unfold safe_endpoints, GoInt.in_int, GoInt.minInt, GoInt.maxInt.
    change (2 ^ 63) with 9223372036854775808. lia.
  - vm_compute. lia.
  - right; right. reflexivity.
  - exists ws. split; [exact E|].
    destruct (ws !! 2%nat) as [p|] eqn:Hp.
    + now rewrite (Hall 2%nat p Hp).
    + apply lookup_ge_None in Hp.
      change (majorLength 3 7 (-2) 2) with 5 in Hlen. lia.
Defined.

(** ** drawLine on an image *)

(** Whatever the endpoints, a finished drawLine has not resized the
    image; it has given its colour to the pixels of its trace that lie
    inside the image and has silently dropped the others, and every
    pixel off the trace is as it was. *)
Theorem drawLine_frame (fuel : nat) (img img' : image.RGBA)
    (x0 y0 x1 y1 : Z) (c : color.RGBA) :
  drawLine fuel img x0 y0 x1 y1 c = Some img' ->
  exists ws,
    lineWrites fuel x0 y0 x1 y1 = Some ws /\
    image.Bounds img' = image.Bounds img /\
    image.Stride img' = image.Stride img /\
    length (image.Pix img') = length (image.Pix img) /\
    (wellFormed img ->
     forall x y : Z,
       ((x, y) ∈ ws -> image.PointIn x y (image.Bounds img) = true ->
        image.At img' x y = c) /\
       ((x, y) ∉ ws -> image.At img' x y = image.At img x y) /\
       (image.PointIn x y (image.Bounds img) = false ->
        image.At img' x y = color.Transparent)).
Proof.
  rewrite drawLine_writes.
  destruct (lineWrites fuel x0 y0 x1 y1) as [ws|]; [|discriminate].
  intros [= <-]. exists ws. split; [reflexivity|].
  destruct (setAll_canvas c ws img) as (HB & HS & HP).
  do 3 (split; [assumption|]).
  intros Hwf x y. split; [|split].
  - intros Hin Hpt. now apply At_setAll_in.
  - intros Hnotin. now apply At_setAll_notin.
  - intros Hout. unfold image.At. now rewrite HB, Hout.
Qed.

Lemma drawLine_frame_witness :
  exists img',
    drawLine 10 blankCanvas 198 0 203 2 color.Black = Some img' /\
    image.At img' 199 0 = color.Black /\
    image.At img' 201 1 = color.Transparent /\
    image.At img' 0 0 = color.White.
Proof.
  destruct (drawLine 10 blankCanvas 198 0 203 2 color.Black) as [img'|] eqn:E;
    [|vm_compute in E; discriminate].
  destruct (drawLine_frame 10 blankCanvas img' 198 0 203 2 color.Black E)
    as (ws & Ews & _ & _ & _ & Hat).
  assert (Hws : ws = [(198, 0); (199, 0); (200, 1); (201, 1); (202, 2); (203, 2)]).
  { vm_compute in Ews. now injection Ews as <-. }
  exists img'. split; [reflexivity|].
  pose proof (Hat blankCanvas_wellFormed) as Hat'.
  split; [|split].
  - apply (Hat' 199 0); [|reflexivity].
    rewrite Hws. apply list_elem_of_lookup. now exists 1%nat.
  - now apply (Hat' 201 1).
  - destruct (Hat' 0 0) as (_ & H00 & _). rewrite H00; [reflexivity|].
    rewrite Hws. intros Hin. apply list_elem_of_lookup in Hin as [k Hk].
    do 7 (destruct k as [|k]; [discriminate|]). discriminate.
Defined.

(** ** addDistortion for any canvas size *)

Lemma noisePixels_inside (fuel n : nat) (width height : Z) (w : World)
    (p : Z * Z) :
  0 < width <= 2 ^ 61 -> 0 < height <= 2 ^ 61 ->
  (Z.to_nat (Z.max width height) <= fuel)%nat ->
  p ∈ noisePixels fuel (strokes n width height w) ->
  0 <= p.1 < width /\ 0 <= p.2 < height.
Proof.
  intros Hw Hh Hfuel Hp. unfold noisePixels in Hp.
  apply list_elem_of_bind in Hp as ([[[a b] c] d] & Hp & Hs).
  apply list_elem_of_lookup in Hs as [i Hs].
  apply strokes_lookup in Hs as [_ Hs].
  pose proof (strokeAt_range width height w i) as Hr. rewrite <- Hs in Hr.
  destruct Hr as (Ha & Hb & Hc & Hd); [lia..|].
  destruct (stroke_writes fuel width height a b c d)
    as (ws & E & _ & _ & _ & Hall); try lia.
  unfold strokeWrites in Hp. rewrite E in Hp.
  change (default [] (Some ws)) with ws in Hp.
  apply list_elem_of_lookup in Hp as [t Hp].
  destruct (Hall t p Hp) as (_ & _ & _ & Hin).
  apply PointIn_spec in Hin. cbn in Hin. lia.
Qed.

(** For every positive width and height the ten strokes are drawn
    completely, forty values are read from the entropy source, and every
    write lies in [0,width) x [0,height); the image keeps its size. *)
Theorem addDistortion_any_size (fuel : nat) (img : image.RGBA)
    (width height : Z) (w : World) :
  0 < width <= 2 ^ 61 -> 0 < height <= 2 ^ 61 ->
  (Z.to_nat (Z.max width height) <= fuel)%nat ->
  exists img',
    addDistortion fuel img width height w = Returns img' (skip 40 w) /\
    img' = setAll color.Black img
             (noisePixels fuel (strokes 10 width height w)) /\
    image.Bounds img' = image.Bounds img /\
    length (image.Pix img') = length (image.Pix img) /\
    forall p, p ∈ noisePixels fuel (strokes 10 width height w) ->
      0 <= p.1 < width /\ 0 <= p.2 < height.
Proof.
  intros Hw Hh Hfuel. eexists. split.
  - unfold addDistortion.
    rewrite (addDistortion_loop_spec width height fuel 10 Hw Hh Hfuel).
    now rewrite foldl_paintStroke.
  - split; [reflexivity|].
    destruct (setAll_canvas color.Black
                (noisePixels fuel (strokes 10 width height w)) img)
      as (-> & _ & ->).
    do 2 (split; [reflexivity|]).
    intros p Hp. now apply (noisePixels_inside fuel 10 width height w).
Qed.

Lemma addDistortion_any_size_witness :
  exists img',
    addDistortion 8 (image.NewRGBA (image.Rect 0 0 8 4)) 8 4
      (MkWorld entropyA 0 0) = Returns img' (MkWorld entropyA 40 0) /\
    image.Bounds img' = image.MkRect 0 0 8 4.
Proof.
  destruct (addDistortion_any_size 8 (image.NewRGBA (image.Rect 0 0 8 4)) 8 4
              (MkWorld entropyA 0 0)) as (img' & E & _ & HB & _).
  - vm_compute. split; [reflexivity|discriminate].
  - vm_compute. split; [reflexivity|discriminate].
  - vm_compute. lia.
  - exists img'. split; [exact E|exact HB].
Defined.

(** A canvas without width or without height cannot be given noise:
    rand.Int panics on the first coordinate drawn for it. *)
Theorem addDistortion_empty_canvas (fuel : nat) (img : image.RGBA)
    (width height : Z) (w : World) :
  width <= 0 \/ height <= 0 ->
  addDistortion fuel img width height w =
  Panics "crypto/rand: argument to Int is <= 0".
Proof.
  intros H. unfold addDistortion. cbn [addDistortion_loop].
  unfold mbind at 1, M_bind at 1, randInt at 1, mbind at 1, M_bind at 1,
    Rand.Int at 1.
  destruct (Z.leb_spec width 0) as [Hw | Hw]; [reflexivity|].
  cbn beta iota. unfold mret at 1, M_ret at 1.
  unfold mbind at 1, M_bind at 1, randInt at 1, mbind at 1, M_bind at 1,
    Rand.Int at 1.
  destruct (Z.leb_spec height 0) as [Hh | Hh]; [reflexivity|lia].
Qed.

Lemma addDistortion_empty_canvas_witness :
  addDistortion 200 blankCanvas 200 0 (MkWorld (tape []) 0 0) =
  Panics "crypto/rand: argument to Int is <= 0".
Proof.
  apply (addDistortion_empty_canvas 200 blankCanvas 200 0). right. lia.
Defined.

(** ** What a render consists of *)

Lemma bind_length_between {A B : Type} (f : A -> list B) (lo hi : nat)
    (l : list A) :
  (forall x, x ∈ l -> (lo <= length (f x) <= hi)%nat) ->
  (lo * length l <= length (l ≫= f) <= hi * length l)%nat.
Proof.
  induction l as [|x l IH]; intros H; [cbn; lia|].
  cbn [mbind list_bind length]. rewrite length_app.
  pose proof (H x ltac:(left)) as Hx.
  assert (Hl : (lo * length l <= length (l ≫= f) <= hi * length l)%nat).
  { apply IH. intros y Hy. apply H. now right. }
  lia.
Qed.

(** Every pixel of a rendered image is either the pixel of the text
    layer or black, and a render performs between 10 and 2000 noise
    writes. *)
Theorem generateImage_pixels (L : FontLib) (ttfFont : Font L) (face : Face L)
    (fuel : nat) (text : string) (w : World) :
  keeps_canvas L ->
  Parse_goregular L = Some ttfFont ->
  NewFace L ttfFont = Some face ->
  (200 <= fuel)%nat ->
  exists img w',
    generateImage L fuel text w = Returns img w' /\
    (forall x y : Z,
       image.At img x y = image.At (textLayer L face text) x y \/
       image.At img x y = color.Black) /\
    (10 <= length (noisePixels fuel (strokes 10 200 80 w)) <= 2000)%nat.
Proof.
  intros Hkeeps HP HF Hfuel. eexists _, _.
  split; [now apply (generateImage_returns L ttfFont face HP HF)|].
  pose proof (textLayer_wellFormed L face Hkeeps text) as Hwf.
  destruct (textLayer_canvas L face Hkeeps text) as (HB & _).
  split.
  - intros x y.
    destruct (decide ((x, y) ∈ noisePixels fuel (strokes 10 200 80 w)))
      as [Hin | Hnotin].
    + right. apply At_setAll_in; [done..|].
      destruct (noisePixels_inside fuel 10 200 80 w (x, y)) as [Hx Hy];
        [vm_compute; split; [reflexivity|discriminate]..|lia|done|].
      rewrite HB. apply PointIn_spec. cbn in *. lia.
    + left. now apply At_setAll_notin.
  - pose proof (bind_length_between (strokeWrites fuel) 1 200
                  (strokes 10 200 80 w)) as Hlen.
    rewrite strokes_length in Hlen. apply Hlen.
    intros [[[x1 y1] x2] y2] Hs.
    apply list_elem_of_lookup in Hs as [i Hs].
    apply strokes_lookup in Hs as [_ Hs].
    pose proof (strokeAt_range 200 80 w i) as Hr. rewrite <- Hs in Hr.
    destruct Hr as (Hx1 & Hy1 & Hx2 & Hy2); [lia..|].
    destruct (stroke_writes fuel 200 80 x1 y1 x2 y2)
      as (ws & E & Hl & _); try lia.
    unfold strokeWrites. rewrite E. change (default [] (Some ws)) with ws.
    destruct (canvas_endpoints_safe 200 80 x1 y1 x2 y2) as [_ Hm]; try lia.
    assert (0 <= majorLength x1 y1 x2 y2).
    { unfold majorLength. lia. }
    lia.
Qed.

Lemma generateImage_pixels_witness :
  exists img w',
    generateImage dotFont 200 "3 + 4 = ?" (MkWorld entropyA 0 0) =
      Returns img w' /\
    (image.At img 150 70 = image.At (textLayer dotFont tt "3 + 4 = ?") 150 70 \/
     image.At img 150 70 = color.Black).
Proof.
  destruct (generateImage_pixels dotFont tt tt 200 "3 + 4 = ?"
              (MkWorld entropyA 0 0) dotFont_keeps_canvas eq_refl eq_refl)
    as (img & w' & E & Hpix & _).
  - lia.
  - exists img, w'. split; [exact E|apply Hpix].
Defined.

(** ** The equation text *)

Lemma append_space_cancel (s1 s1' r r' : string) :
  ~ In " "%char (list_ascii_of_string s1) ->
  ~ In " "%char (list_ascii_of_string s1') ->
  s1 +:+ String " " r = s1' +:+ String " " r' ->
  s1 = s1' /\ r = r'.
Proof.
  revert s1'. induction s1 as [|c s1 IH]; intros [|c' s1'] H1 H2 E; cbn in *.
  - now injection E.
  - injection E as <- _. exfalso. apply H2. now left.
  - injection E as -> _. exfalso. apply H1. now left.
  - injection E as -> E. destruct (IH s1') as [-> ->]; auto.
Qed.

Lemma pretty_N_go_no_space (x : N) :
  forall s : string,
    ~ In " "%char (list_ascii_of_string s) ->
    ~ In " "%char (list_ascii_of_string (pretty_N_go x s)).
Proof.
  induction (N.lt_wf_0 x) as [x _ IH]. intros s Hs.
  destruct (N.eq_dec x 0%N) as [-> | Hx]; [exact Hs|].
  rewrite pretty_N_go_step by lia.
  apply IH; [apply N.div_lt; lia|].
  cbn [list_ascii_of_string]. intros [Hc | Hin]; [|contradiction].
  destruct (pretty_N_char_digit (x mod 10)%N) as [Hd _];
    [apply N.mod_lt; lia|].
  rewrite Hc in Hd. discriminate.
Qed.

Lemma pretty_Z_no_space (n : Z) :
  ~ In " "%char (list_ascii_of_string (pretty n)).
Proof.
  destruct n as [|p|p].
  - cbn. intros [H | []]. discriminate.
  - change (pretty (Z.pos p)) with (pretty_N_go (N.pos p) "").
    apply pretty_N_go_no_space. intros [].
  - change (pretty (Z.neg p)) with (String "-" (pretty_N_go (N.pos p) "")).
    cbn [list_ascii_of_string]. intros [H | Hin]; [discriminate|].
    revert Hin. apply pretty_N_go_no_space. intros [].
Qed.

Lemma Sprintf_equation_inj (a b a' b' : Z) (op op' : string) :
  op ∈ ops -> op' ∈ ops ->
  Sprintf_equation a op b = Sprintf_equation a' op' b' ->
  a = a' /\ op = op' /\ b = b'.
Proof.
  intros Hop Hop' E. unfold Sprintf_equation in E.
  change (" " +:+ ?r)%string with (String " " r) in E.
  apply append_space_cancel in E as [Ea E]; [|apply pretty_Z_no_space..].
  apply (inj pretty) in Ea.
  assert (Hcases : forall o, o ∈ ops -> o = "+" \/ o = "-" \/ o = "*").
  { intros o Ho. unfold ops in Ho.
    repeat (apply elem_of_cons in Ho as [-> | Ho]; [auto|]).
    now apply elem_of_nil in Ho. }
  assert (Hb : op = op' /\ pretty b +:+ String " " "= ?" =
                           pretty b' +:+ String " " "= ?").
  { destruct (Hcases op Hop) as [-> | [-> | ->]];
      destruct (Hcases op' Hop') as [-> | [-> | ->]];
      cbn in E; try discriminate; injection E as E; now split. }
  destruct Hb as [Eop Eb].
  apply append_space_cancel in Eb as [Eb _]; [|apply pretty_Z_no_space..].
  apply (inj pretty) in Eb. auto.
Qed.

(** The text of a generated equation determines its answer: two
    generated challenges that read the same have the same answer. *)
Theorem equation_text_determines_answer (w1 w2 : World) :
  exists eqn1 ans1 eqn2 ans2,
    generateEquation w1 = Returns (eqn1, ans1) (skip 3 w1) /\
    generateEquation w2 = Returns (eqn2, ans2) (skip 3 w2) /\
    (eqn1 = eqn2 -> ans1 = ans2).
Proof.
  destruct (drawOperands_spec w1) as (op1 & a1 & b1 & E1 & H1).
  destruct (drawOperands_spec w2) as (op2 & a2 & b2 & E2 & H2).
  eexists _, _, _, _.
  split; [exact (generateEquation_unfold _ _ _ _ _ E1)|].
  split; [exact (generateEquation_unfold _ _ _ _ _ E2)|].
  intros E.
  apply Sprintf_equation_inj in E as (-> & -> & ->); [reflexivity|..].
  - unfold ops. destruct H1 as [(-> & _) | [(-> & _) | (-> & _)]];
      repeat constructor.
  - unfold ops. destruct H2 as [(-> & _) | [(-> & _) | (-> & _)]];
      repeat constructor.
Qed.

(** ** Growth of the store *)

Lemma serve_frame (L : FontLib) (fuel : nat) (rqs : list Request) :
  forall (st st' : Store) (id : string) (w w' : World) (rs : list Response),
    Forall (fun rq => creates rq id = false /\ submits rq id = false) rqs ->
    serve L fuel rqs st w = Returns (rs, st') w' ->
    st' !! id = st !! id.
Proof.
  induction rqs as [|rq rqs IH]; intros st st' id w w' rs Hall E.
  - now injection E as _ <- _.
  - apply serve_cons_inv in E as (r & st1 & w1 & rs1 & Eh & Es & ->).
    apply Forall_cons in Hall as [[Hc Hs] Hall].
    rewrite (IH st1 st' id w1 w' rs1 Hall Es).
    exact (handle_frame L fuel _ _ _ _ _ _ _ Eh Hc Hs).
Qed.

(** Nothing evicts: issuing challenges under tokens that are new and
    distinct always succeeds, with one response per request, stores
    every one of the tokens and makes the store larger by one entry per
    request. *)
Theorem store_grows_with_issued (L : FontLib) (fuel : nat)
    (issued : list (string * Z)) :
  forall (st : Store) (w : World),
    NoDup issued.*1 ->
    (forall uuid, uuid ∈ issued.*1 -> st !! uuid = None) ->
    exists rs st' w',
      serve L fuel ((fun p => GetCaptchaNew p.1 p.2) <$> issued) st w =
        Returns (rs, st') w' /\
      length rs = length issued /\
      size st' = (size st + length issued)%nat /\
      forall uuid, uuid ∈ issued.*1 -> is_Some (st' !! uuid).
Proof.
  induction issued as [|[u t] issued IH]; intros st w Hnd Hfresh.
  - exists [], st, w. split; [|split; [|split]].
    + reflexivity.
    + reflexivity.
    + cbn. lia.
    + intros uuid Hin. now apply elem_of_nil in Hin.
  - cbn [fmap list_fmap fst snd] in *. apply NoDup_cons in Hnd as [Hu Hnd].
    destruct (issue_returns st u t w) as (eqn & ans & _ & _ & _ & En).
    destruct (IH (StoreOps.create st u eqn ans t) (skip 3 w) Hnd)
      as (rs & st' & w' & Es & Hlen & Hsize & Hsome).
    { intros uuid Hin. unfold StoreOps.create.
      rewrite lookup_insert_ne; [apply Hfresh; now right|].
      intros ->. contradiction. }
    eexists (_ :: rs), st', w'. split; [|split; [|split]].
    + cbn [serve handle]. unfold mbind, M_bind. rewrite En.
      change (list_fmap (string * Z)%type Request
                (fun p => GetCaptchaNew p.1 p.2) issued)
        with ((fun p => GetCaptchaNew p.1 p.2) <$> issued).
      rewrite Es. reflexivity.
    + cbn. now rewrite Hlen.
    + rewrite Hsize. unfold StoreOps.create.
      rewrite map_size_insert_None by (apply Hfresh; now left). cbn. lia.
    + intros uuid Hin. apply elem_of_cons in Hin as [-> | Hin];
        [|now apply Hsome].
      destruct (decide (u ∈ issued.*1)) as [Hin | Hnotin]; [contradiction|].
      assert (Hkeep : st' !! u = StoreOps.create st u eqn ans t !! u).
      { apply (serve_frame L fuel _ _ _ _ _ _ _ ) with (2 := Es).
        apply Forall_fmap, Forall_forall. intros [u' t'] Hin'. cbn.
        split; [|reflexivity]. apply String.eqb_neq. intros ->.
        apply Hnotin. apply list_elem_of_fmap. now exists (u, t'). }
      rewrite Hkeep. unfold StoreOps.create. rewrite lookup_insert_eq. eauto.
Qed.

Lemma store_grows_with_issued_witness :
  exists rs st' w',
    serve dotFont 200 [GetCaptchaNew "a" 1; GetCaptchaNew "b" 2]
      sampleStore (MkWorld (tape []) 0 0) = Returns (rs, st') w' /\
    size st' = 3%nat.
Proof.
  destruct (store_grows_with_issued dotFont 200 [("a", 1); ("b", 2)]
              sampleStore (MkWorld (tape []) 0 0))
    as (rs & st' & w' & E & _ & Hsize & _).
  - cbn. apply NoDup_cons. split; [|apply NoDup_singleton].
    intros H. apply list_elem_of_singleton in H. discriminate.
  - intros uuid Hin. cbn in Hin.
    apply elem_of_cons in Hin as [-> | Hin]; [reflexivity|].
    apply list_elem_of_singleton in Hin as ->. reflexivity.
  - exists rs, st', w'.
    split; [exact E|]. rewrite Hsize. vm_compute. reflexivity.
Defined.
